(** * Debt payoff calculator (src/debt_payoff.py): model and properties

    The simulator [calculate_debt_payoff] is embedded as executable
    definitions, twice.

    The main development computes with exact rationals ([Q]): amounts and
    rates are the values the Python code computes on [fractions.Fraction]
    arguments.  A [Fraction] is always in lowest terms; [fr] reduces the
    result of each arithmetic expression the same way, so amounts stay
    small.  Equality of amounts is [Qeq] ([==]).  Each row of the ledger is
    the Python dict [monthly_summary], a finite map from column names to
    amounts; the ledger is the list [results] handed to [pd.DataFrame].

    Module [Binary64] embeds the same lines over primitive floats, the
    arithmetic of a run started from the command line.  What depends on
    how a comparison comes out at the last bit (which inputs validation
    rejects, whether a balance ends at zero) is stated there. *)

From Stdlib Require Import QArith Qminmax Lqa Lia List Sorted Permutation Bool.
From Stdlib Require Import String Ascii PrimFloat.
From stdpp Require Import gmap strings list fin_maps.

Local Open Scope Q_scope.

(** ** Data model *)

(** A debt dict: ['name'], ['balance'], ['interest_rate'], ['min_payment']. *)
Record Debt : Type := mkDebt {
  name : string;
  balance : Q;
  interest_rate : Q;
  min_payment : Q
}.

(** The [ValueError]s raised by validation, one constructor per [raise]. *)
Inductive ValueError : Type :=
| EmptyDebts
| NonPositiveBalance (n : string)
| NegativeInterestRate (n : string)
| NonPositiveMinPayment (n : string)
| MinPaymentBelowInterest (n : string) (min_pay interest : Q)
| NegativeExtraPayment.

Definition MAX_PAYOFF_MONTHS : nat := 1200.

(** Comparisons of the source, as booleans. *)
Definition Qleb (a b : Q) : bool := Qle_bool a b.
Definition Qltb (a b : Q) : bool := negb (Qle_bool b a).
Definition Qeqb (a b : Q) : bool := Qeq_bool a b.

(** The value of an arithmetic expression, in lowest terms. *)
Definition fr (x : Q) : Q := Qred x.

(** [debt["balance"] * (debt["interest_rate"] / 100) / 12] *)
Definition monthly_interest (d : Debt) : Q :=
  fr (balance d * (interest_rate d / 100) / 12).

(** ** Validation (lines 27-48) *)

(** The body of [for debt in debts]: the first failing check raises. *)
Definition validate_debt (extra_payment : Q) (d : Debt) : option ValueError :=
  if Qleb (balance d) 0 then Some (NonPositiveBalance (name d))
  else if Qltb (interest_rate d) 0 then Some (NegativeInterestRate (name d))
  else if Qleb (min_payment d) 0 then Some (NonPositiveMinPayment (name d))
  else if Qleb (min_payment d) (monthly_interest d) && Qeqb extra_payment 0
       then Some (MinPaymentBelowInterest (name d) (min_payment d) (monthly_interest d))
  else None.

Fixpoint validate_debts (extra_payment : Q) (debts : list Debt) : option ValueError :=
  match debts with
  | [] => None
  | d :: rest =>
      match validate_debt extra_payment d with
      | Some e => Some e
      | None => validate_debts extra_payment rest
      end
  end.

Definition validate (debts : list Debt) (extra_payment : Q) : option ValueError :=
  match debts with
  | [] => Some EmptyDebts
  | _ =>
      match validate_debts extra_payment debts with
      | Some e => Some e
      | None => if Qltb extra_payment 0 then Some NegativeExtraPayment else None
      end
  end.

(** ** Strategy ordering (lines 54-57) *)

(** Python's [sorted(l, key=..., reverse=...)] is a stable sort.  It is
    modelled by a stable insertion sort: [insert_by] puts [x], which comes
    earlier in the input than everything already inserted, in front of the
    first element that may follow it. *)
Section PySorted.
Context {A : Type} (key : A -> Q) (reverse : bool).

(** [x] may stand before [y]: [key x <= key y], or [>=] with [reverse]. *)
Definition may_precede (x y : A) : bool :=
  if reverse then Qleb (key y) (key x) else Qleb (key x) (key y).

Fixpoint insert_by (x : A) (l : list A) : list A :=
  match l with
  | [] => [x]
  | y :: t => if may_precede x y then x :: y :: t else y :: insert_by x t
  end.

Definition sorted (l : list A) : list A := fold_right insert_by [] l.

(** The order [sorted] establishes between an earlier and a later element. *)
Definition key_le (x y : A) : Prop :=
  if reverse then key y <= key x else key x <= key y.
End PySorted.

(** The elements whose key equals [k], in list order. *)
Definition with_key {A : Type} (key : A -> Q) (k : Q) (l : list A) : list A :=
  List.filter (fun d => Qeqb (key d) k) l.

(** [if method == "snowball": ... elif method == "avalanche": ...]; the
    list comprehension [[{**d} for d in debts]] before it copies each dict,
    which is the identity on values. *)
Definition order_debts (method : string) (debts : list Debt) : list Debt :=
  if String.eqb method "snowball" then sorted balance false debts
  else if String.eqb method "avalanche" then sorted interest_rate true debts
  else debts.

(** ** One month of payments (lines 65-92) *)

Definition col_balance (n : string) : string := "Debt " +:+ n +:+ " Balance".
Definition col_payment (n : string) : string := "Debt " +:+ n +:+ " Payment".
Definition col_interest (n : string) : string := "Debt " +:+ n +:+ " Interest".

(** Python's [max(0, x)] *)
Definition max0 (x : Q) : Q := if Qltb 0 x then x else 0.

(** The locals threaded through [for debt in debts]. *)
Record PassState : Type := mkPass {
  extra_remaining : Q;
  total_interest_paid : Q;
  monthly_summary : gmap string Q
}.

(** [payment] of lines 75-78, from the debt and the pool left for it. *)
Definition payment_of (pool : Q) (d : Debt) : Q :=
  if Qleb (balance d + monthly_interest d) (min_payment d)
  then fr (balance d + monthly_interest d)
  else fr (min_payment d + (if Qltb 0 pool then pool else 0)).

(** [extra_remaining] after line 80. *)
Definition pool_after (pool : Q) (d : Debt) : Q :=
  fr (pool - max0 (payment_of pool d - (monthly_interest d + min_payment d))).

(** The debt after line 82: [debt["balance"] -= principal_payment]. *)
Definition pay (pool : Q) (d : Debt) : Debt :=
  let principal_payment := payment_of pool d - monthly_interest d in
  mkDebt (name d) (fr (balance d - principal_payment)) (interest_rate d) (min_payment d).

(** The body of the [for] loop: a paid-off debt is skipped by [continue]. *)
Definition process_debt (st : PassState) (d : Debt) : PassState * Debt :=
  if Qleb (balance d) 0 then (st, d)
  else
    let interest := monthly_interest d in
    let payment := payment_of (extra_remaining st) d in
    let d' := pay (extra_remaining st) d in
    (mkPass (pool_after (extra_remaining st) d)
            (fr (total_interest_paid st + interest))
            (<[col_interest (name d) := interest]>
               (<[col_payment (name d) := payment]>
                  (<[col_balance (name d) := balance d']>
                     (monthly_summary st)))),
     d').

Fixpoint pass_debts (st : PassState) (debts : list Debt) : PassState * list Debt :=
  match debts with
  | [] => (st, [])
  | d :: rest =>
      let '(st1, d') := process_debt st d in
      let '(st2, rest') := pass_debts st1 rest in
      (st2, d' :: rest')
  end.

(** Line 91: the sum of the payment columns present, one term per debt. *)
Definition sum_payments (summary : gmap string Q) (debts : list Debt) : Q :=
  fold_left
    (fun acc d => match summary !! col_payment (name d) with
                  | Some p => fr (acc + p)
                  | None => acc
                  end)
    debts 0.

(** ** The simulation loop (lines 59-97) *)

Record LoopState : Type := mkLoop {
  l_debts : list Debt;
  l_total_interest_paid : Q;
  l_results : list (gmap string Q);
  l_month : nat
}.

Definition month_value (m : nat) : Q := inject_Z (Z.of_nat m).

(** [any(debt["balance"] > 0 for debt in debts)] *)
Definition any_open (debts : list Debt) : bool :=
  existsb (fun d => Qltb 0 (balance d)) debts.

Definition loop_cond (s : LoopState) : bool :=
  any_open (l_debts s) && (l_month s <=? MAX_PAYOFF_MONTHS)%nat.

Definition initial_summary (m : nat) (tip : Q) : gmap string Q :=
  <["Total Interest Paid"%string := tip]>
    (<["Total Payment"%string := 0]>
       (<["Month"%string := month_value m]> ∅)).

(** The row appended by one iteration, and the debts after it. *)
Definition month_pass (extra_payment : Q) (m : nat) (tip : Q) (debts : list Debt)
  : PassState * list Debt :=
  pass_debts (mkPass extra_payment tip (initial_summary m tip)) debts.

Definition month_row (extra_payment : Q) (m : nat) (tip : Q) (debts : list Debt)
  : gmap string Q :=
  let '(st, debts') := month_pass extra_payment m tip debts in
  <["Total Interest Paid"%string := total_interest_paid st]>
    (<["Total Payment"%string := sum_payments (monthly_summary st) debts']>
       (monthly_summary st)).

Definition loop_body (extra_payment : Q) (s : LoopState) : LoopState :=
  let '(st, debts') := month_pass extra_payment (l_month s) (l_total_interest_paid s) (l_debts s) in
  mkLoop debts'
         (total_interest_paid st)
         (l_results s ++ [month_row extra_payment (l_month s) (l_total_interest_paid s) (l_debts s)])
         (S (l_month s)).

(** The [while] loop; [None] only if [fuel] iterations were not enough. *)
Fixpoint while_loop (extra_payment : Q) (fuel : nat) (s : LoopState) : option LoopState :=
  if loop_cond s then
    match fuel with
    | O => None
    | S fuel' => while_loop extra_payment fuel' (loop_body extra_payment s)
    end
  else Some s.

Definition initial_state (debts : list Debt) : LoopState := mkLoop debts 0 [] 1.

(** The result of a call: the exception raised or the ledger returned. *)
Definition Ledger : Type := list (gmap string Q).

Definition calculate_debt_payoff_fuel (fuel : nat)
    (debts : list Debt) (method : string) (extra_payment : Q)
  : option (ValueError + Ledger) :=
  match validate debts extra_payment with
  | Some e => Some (inl e)
  | None =>
      match while_loop extra_payment fuel (initial_state (order_debts method debts)) with
      | Some s => Some (inr (l_results s))
      | None => None
      end
  end.

Definition calculate_debt_payoff := calculate_debt_payoff_fuel MAX_PAYOFF_MONTHS.

(** ** Notions used to state the properties *)

(** The rejection conditions, as the specification lists them. *)
Definition debt_rejected (extra_payment : Q) (d : Debt) : Prop :=
  balance d <= 0 \/ interest_rate d < 0 \/ min_payment d <= 0 \/
  (min_payment d <= balance d * (interest_rate d / 100) / 12 /\ extra_payment == 0).

Definition input_rejected (debts : list Debt) (extra_payment : Q) : Prop :=
  debts = [] \/ (exists d, In d debts /\ debt_rejected extra_payment d) \/ extra_payment < 0.

(** The loop variables after [n] iterations of the loop body. *)
Fixpoint state_after (extra_payment : Q) (n : nat) (s : LoopState) : LoopState :=
  match n with
  | O => s
  | S n' => loop_body extra_payment (state_after extra_payment n' s)
  end.

(** The row appended by iteration [k] (counted from 0) of a run from [s]. *)
Definition row_of (extra_payment : Q) (s : LoopState) (k : nat) : gmap string Q :=
  let sk := state_after extra_payment k s in
  month_row extra_payment (l_month sk) (l_total_interest_paid sk) (l_debts sk).

(** The working copy of the debts after [n] simulated months. *)
Definition debts_after (extra_payment : Q) (method : string) (debts : list Debt) (n : nat)
  : list Debt :=
  l_debts (state_after extra_payment n (initial_state (order_debts method debts))).

(** What one pass does to a debt, given the pool left when it is reached. *)
Definition step_debt (pool : Q) (d : Debt) : Debt :=
  if Qleb (balance d) 0 then d else pay pool d.

Definition step_pool (pool : Q) (d : Debt) : Q :=
  if Qleb (balance d) 0 then pool else pool_after pool d.

(** The pool left when the pass reaches the debt at position [j]. *)
Fixpoint pool_before (pool : Q) (debts : list Debt) (j : nat) : Q :=
  match debts, j with
  | d :: rest, S j' => pool_before (step_pool pool d) rest j'
  | _, _ => pool
  end.

(** The interest charged to a debt in a month: none once it is paid off. *)
Definition debt_interest (d : Debt) : Q :=
  if Qleb (balance d) 0 then 0 else monthly_interest d.

(** The interest charged in a month over all debts. *)
Definition interest_charged (debts : list Debt) : Q :=
  fold_right (fun d acc => debt_interest d + acc) 0 debts.

(** The cumulative interest after [n] simulated months. *)
Definition interest_after (extra_payment : Q) (method : string) (debts : list Debt) (n : nat)
  : Q :=
  l_total_interest_paid
    (state_after extra_payment n (initial_state (order_debts method debts))).

(** A debt whose minimum payment exceeds a month of interest on its balance. *)
Definition amortizing (d : Debt) : Prop :=
  0 <= interest_rate d /\ balance d * (interest_rate d / 100) / 12 < min_payment d.

(** What validation establishes about each debt of an accepted call. *)
Definition accepted_debt (extra_payment : Q) (d : Debt) : Prop :=
  0 < balance d /\ 0 <= interest_rate d /\ 0 < min_payment d
  /\ (extra_payment == 0 -> balance d * (interest_rate d / 100) / 12 < min_payment d).

(** The sum of the interest charges of the first [n] months, over all debts. *)
Fixpoint interest_charged_through (extra_payment : Q) (method : string) (debts : list Debt)
    (n : nat) : Q :=
  match n with
  | O => 0
  | S n' => interest_charged_through extra_payment method debts n'
            + interest_charged (debts_after extra_payment method debts n')
  end.

Definition col_total_interest : string := "Total Interest Paid".
Definition col_total_payment : string := "Total Payment".
Definition col_month : string := "Month".

(** The three columns a row holds for the debt named [n]. *)
Definition debt_columns (n : string) : list string :=
  [col_balance n; col_payment n; col_interest n].

(** [t1] is a suffix of [t2]. *)
Fixpoint is_suffix (t1 t2 : string) : bool :=
  String.eqb t1 t2
  || match t2 with
     | EmptyString => false
     | String _ t2' => is_suffix t1 t2'
     end.

(** The ledger a call returned (empty if it raised). *)
Definition ledger_of (result : option (ValueError + Ledger)) : Ledger :=
  match result with
  | Some (inr ledger) => ledger
  | _ => []
  end.

(** Inputs used as examples. *)
Definition scenario_a : list Debt := [mkDebt "A" 1200 0 100].

Definition small_and_large : list Debt :=
  [mkDebt "A" 100 0 100; mkDebt "B" 1000 0 100].

Definition card_and_loan : list Debt :=
  [mkDebt "Card" 500 20 50; mkDebt "Loan" 1000 10 50].

Definition rising_and_overpaid : list Debt :=
  [mkDebt "A" 90 0 10; mkDebt "B" 100 24 1].

Definition overpaid : list Debt := [mkDebt "A" 100 0 10].

Definition interest_then_payoff : list Debt :=
  [mkDebt "A" 1000 12 10; mkDebt "B" 5 0 50].

Definition loan_then_card : list Debt :=
  [mkDebt "Loan" 1000 10 50; mkDebt "Card" 500 20 50].

Definition slow_payoff : list Debt := [mkDebt "A" 1200 0 1].

(** ** Further notions: validation errors, payments of a month *)


(** The payments made in one pass, added up debt by debt. *)
Fixpoint month_payments (pool : Q) (debts : list Debt) : Q :=
  match debts with
  | [] => 0
  | d :: rest =>
      if Qleb (balance d) 0 then month_payments pool rest
      else payment_of pool d + month_payments (pool_after pool d) rest
  end.

(** A debt left to itself for [n] months, with no pool. *)
Fixpoint alone (n : nat) (d : Debt) : Debt :=
  match n with
  | O => d
  | S n' => step_debt 0 (alone n' d)
  end.

(** Two optional amounts that agree: both absent, or equal amounts. *)
Definition same_amount (a b : option Q) : Prop :=
  match a, b with
  | Some u, Some v => u == v
  | None, None => True
  | _, _ => False
  end.

(** The payments of a month when no debt gets anything from a pool. *)
Definition payments_alone (debts : list Debt) : Q :=
  fold_right
    (fun d acc => (if Qleb (balance d) 0 then 0 else payment_of 0 d) + acc) 0 debts.

(** ** Reporting: chart and spreadsheet (lines 99-181) *)

(** Python's [p in s] on strings: [p] occurs somewhere in [s]. *)
Fixpoint contains (p s : string) : bool :=
  String.prefix p s
  || match s with
     | EmptyString => false
     | String _ s' => contains p s'
     end.

(** Python's [s.replace(old, new)] for a non-empty [old], the only use the
    code makes of it: occurrences are replaced from left to right, and the
    scan resumes after each replaced occurrence ([skip] counts the
    characters of it still to pass over). *)
Fixpoint replace_from (old new : string) (skip : nat) (s : string) : string :=
  match s with
  | EmptyString => EmptyString
  | String c s' =>
      match skip with
      | S k => replace_from old new k s'
      | O =>
          if String.prefix old s
          then new +:+ replace_from old new (String.length old - 1) s'
          else String c (replace_from old new 0 s')
      end
  end.

Definition replace (old new s : string) : string := replace_from old new 0 s.

(** [col.replace("Debt ", "").replace(" Balance", "")] *)
Definition plot_label (col : string) : string :=
  replace " Balance" EmptyString (replace "Debt " EmptyString col).

(** [plot_debt_payoff]: the lines drawn, as (legend label, column) pairs,
    one for each column of the frame with ["Balance"] in its name, in
    column order. *)
Definition plot_debt_payoff (columns : list string) : list (string * string) :=
  map (fun col => (plot_label col, col)) (List.filter (contains "Balance") columns).

(** [export_to_excel]: the test selecting the columns that get the dollar
    number format. *)
Definition needs_currency_format (col_name : string) : bool :=
  contains "Payment" col_name || contains "Balance" col_name
  || contains "Interest" col_name
  || existsb (String.eqb col_name) ["Total Payment"; "Total Interest Paid"]%string.

(** [auto_adjust_column_width]: a sheet is a list of columns of cell
    values; the width of a column is two more than the longest [str] of
    its truthy cells.  Python's [str] on a number is a parameter. *)
Inductive CellValue : Type :=
| CellNone
| CellText (s : string)
| CellNumber (q : Q).

Section ColumnWidth.
Variable str_number : Q -> string.

(** [if cell.value:] *)
Definition truthy (v : CellValue) : bool :=
  match v with
  | CellNone => false
  | CellText s => negb (String.eqb s EmptyString)
  | CellNumber q => negb (Qeqb q 0)
  end.

(** [str(cell.value)] *)
Definition cell_text (v : CellValue) : string :=
  match v with
  | CellNone => "None"
  | CellText s => s
  | CellNumber q => str_number q
  end.

Definition adjusted_width (col : list CellValue) : nat :=
  (fold_left
     (fun max_length cell =>
        if truthy cell then Nat.max max_length (String.length (cell_text cell))
        else max_length)
     col 0 + 2)%nat.

Definition auto_adjust_column_width (sheet : list (list CellValue)) : list nat :=
  map adjusted_width sheet.
End ColumnWidth.

(** ** The same code in binary64

    Called from its command-line entry point the program computes with
    Python floats.  [Binary64] embeds lines 12-97 once more, statement by
    statement, over primitive floats, with each comparison as the code
    writes it.  Python's [sum] over floats rounds differently from one
    CPython version to another (plain left-to-right addition up to 3.11,
    compensated from 3.12 on), so it is a parameter, [py_sum]. *)
Module Binary64.

Local Open Scope float_scope.

Record Debt : Type := mkDebt {
  name : string;
  balance : float;
  interest_rate : float;
  min_payment : float
}.

Inductive ValueError : Type :=
| EmptyDebts
| NonPositiveBalance (n : string)
| NegativeInterestRate (n : string)
| NonPositiveMinPayment (n : string)
| MinPaymentBelowInterest (n : string) (min_pay interest : float)
| NegativeExtraPayment.

Definition monthly_interest (d : Debt) : float :=
  balance d * (interest_rate d / 100) / 12.

Definition validate_debt (extra_payment : float) (d : Debt) : option ValueError :=
  if PrimFloat.leb (balance d) 0 then Some (NonPositiveBalance (name d))
  else if PrimFloat.ltb (interest_rate d) 0 then Some (NegativeInterestRate (name d))
  else if PrimFloat.leb (min_payment d) 0 then Some (NonPositiveMinPayment (name d))
  else if PrimFloat.leb (min_payment d) (monthly_interest d) && PrimFloat.eqb extra_payment 0
       then Some (MinPaymentBelowInterest (name d) (min_payment d) (monthly_interest d))
  else None.

Fixpoint validate_debts (extra_payment : float) (debts : list Debt) : option ValueError :=
  match debts with
  | [] => None
  | d :: rest =>
      match validate_debt extra_payment d with
      | Some e => Some e
      | None => validate_debts extra_payment rest
      end
  end.

Definition validate (debts : list Debt) (extra_payment : float) : option ValueError :=
  match debts with
  | [] => Some EmptyDebts
  | _ =>
      match validate_debts extra_payment debts with
      | Some e => Some e
      | None => if PrimFloat.ltb extra_payment 0 then Some NegativeExtraPayment else None
      end
  end.

(** [sorted] compares keys with [<] only: an element stays in front of a
    later one unless the later one's key is smaller (greater, with
    [reverse=True]). *)
Definition may_precede (key : Debt -> float) (reverse : bool) (x y : Debt) : bool :=
  if reverse then negb (PrimFloat.ltb (key x) (key y))
  else negb (PrimFloat.ltb (key y) (key x)).

Fixpoint insert_by (key : Debt -> float) (reverse : bool) (x : Debt) (l : list Debt)
  : list Debt :=
  match l with
  | [] => [x]
  | y :: t => if may_precede key reverse x y then x :: y :: t
              else y :: insert_by key reverse x t
  end.

Definition sorted (key : Debt -> float) (reverse : bool) (l : list Debt) : list Debt :=
  fold_right (insert_by key reverse) [] l.

Definition order_debts (method : string) (debts : list Debt) : list Debt :=
  if String.eqb method "snowball" then sorted balance false debts
  else if String.eqb method "avalanche" then sorted interest_rate true debts
  else debts.

Definition max0 (x : float) : float := if PrimFloat.ltb 0 x then x else 0.

Record PassState : Type := mkPass {
  extra_remaining : float;
  total_interest_paid : float;
  monthly_summary : gmap string float
}.

Definition payment_of (pool : float) (d : Debt) : float :=
  if PrimFloat.leb (balance d + monthly_interest d) (min_payment d)
  then balance d + monthly_interest d
  else min_payment d + (if PrimFloat.ltb 0 pool then pool else 0).

Definition pool_after (pool : float) (d : Debt) : float :=
  pool - max0 (payment_of pool d - (monthly_interest d + min_payment d)).

Definition pay (pool : float) (d : Debt) : Debt :=
  let principal_payment := payment_of pool d - monthly_interest d in
  mkDebt (name d) (balance d - principal_payment) (interest_rate d) (min_payment d).

Definition process_debt (st : PassState) (d : Debt) : PassState * Debt :=
  if PrimFloat.leb (balance d) 0 then (st, d)
  else
    let interest := monthly_interest d in
    let payment := payment_of (extra_remaining st) d in
    let d' := pay (extra_remaining st) d in
    (mkPass (pool_after (extra_remaining st) d)
            (total_interest_paid st + interest)
            (<[col_interest (name d) := interest]>
               (<[col_payment (name d) := payment]>
                  (<[col_balance (name d) := balance d']>
                     (monthly_summary st)))),
     d').

Fixpoint pass_debts (st : PassState) (debts : list Debt) : PassState * list Debt :=
  match debts with
  | [] => (st, [])
  | d :: rest =>
      let '(st1, d') := process_debt st d in
      let '(st2, rest') := pass_debts st1 rest in
      (st2, d' :: rest')
  end.

(** The values line 91 hands to [sum]. *)
Fixpoint payments_present (summary : gmap string float) (debts : list Debt) : list float :=
  match debts with
  | [] => []
  | d :: rest =>
      match summary !! col_payment (name d) with
      | Some p => p :: payments_present summary rest
      | None => payments_present summary rest
      end
  end.

Record LoopState : Type := mkLoop {
  l_debts : list Debt;
  l_total_interest_paid : float;
  l_results : list (gmap string float);
  l_month : nat
}.

(** The month number, an integer, as the float of the same value. *)
Fixpoint month_value (m : nat) : float :=
  match m with
  | O => 0
  | S m' => month_value m' + 1
  end.

Definition any_open (debts : list Debt) : bool :=
  existsb (fun d => PrimFloat.ltb 0 (balance d)) debts.

Definition loop_cond (s : LoopState) : bool :=
  any_open (l_debts s) && (l_month s <=? MAX_PAYOFF_MONTHS)%nat.

Definition initial_summary (m : nat) (tip : float) : gmap string float :=
  <["Total Interest Paid"%string := tip]>
    (<["Total Payment"%string := 0]>
       (<["Month"%string := month_value m]> ∅)).

Section WithSum.
Variable py_sum : list float -> float.

Definition loop_body (extra_payment : float) (s : LoopState) : LoopState :=
  let '(st, debts') :=
    pass_debts (mkPass extra_payment (l_total_interest_paid s)
                  (initial_summary (l_month s) (l_total_interest_paid s)))
      (l_debts s) in
  let row :=
    <["Total Interest Paid"%string := total_interest_paid st]>
      (<["Total Payment"%string := py_sum (payments_present (monthly_summary st) debts')]>
         (monthly_summary st)) in
  mkLoop debts' (total_interest_paid st) (l_results s ++ [row]) (S (l_month s)).

Fixpoint while_loop (extra_payment : float) (fuel : nat) (s : LoopState)
  : option LoopState :=
  if loop_cond s then
    match fuel with
    | O => None
    | S fuel' => while_loop extra_payment fuel' (loop_body extra_payment s)
    end
  else Some s.

Definition initial_state (debts : list Debt) : LoopState := mkLoop debts 0 [] 1.

Definition calculate_debt_payoff_fuel (fuel : nat)
    (debts : list Debt) (method : string) (extra_payment : float)
  : option (ValueError + list (gmap string float)) :=
  match validate debts extra_payment with
  | Some e => Some (inl e)
  | None =>
      match while_loop extra_payment fuel (initial_state (order_debts method debts)) with
      | Some s => Some (inr (l_results s))
      | None => None
      end
  end.

Definition calculate_debt_payoff := calculate_debt_payoff_fuel MAX_PAYOFF_MONTHS.

(** Of a finished run: the number of rows and the final balances. *)
Definition run_outcome (debts : list Debt) (method : string) (extra_payment : float)
  : option (nat * list float) :=
  match validate debts extra_payment with
  | Some _ => None
  | None =>
      match while_loop extra_payment MAX_PAYOFF_MONTHS
              (initial_state (order_debts method debts)) with
      | Some s => Some (length (l_results s), map balance (l_debts s))
      | None => None
      end
  end.
End WithSum.

(** The rejection conditions, each decided as the code decides it. *)
Definition debt_rejected (extra_payment : float) (d : Debt) : Prop :=
  PrimFloat.leb (balance d) 0 = true \/ PrimFloat.ltb (interest_rate d) 0 = true
  \/ PrimFloat.leb (min_payment d) 0 = true
  \/ (PrimFloat.leb (min_payment d) (balance d * (interest_rate d / 100) / 12) = true
      /\ PrimFloat.eqb extra_payment 0 = true).

Definition input_rejected (debts : list Debt) (extra_payment : float) : Prop :=
  debts = [] \/ (exists d, In d debts /\ debt_rejected extra_payment d)
  \/ PrimFloat.ltb extra_payment 0 = true.

End Binary64.

(** * Properties *)

(** ** Comparisons and lowest terms *)

Lemma fr_eq (x : Q) : fr x == x.
Proof. apply Qred_correct. Qed.

Lemma Qleb_spec (a b : Q) : reflect (a <= b) (Qleb a b).
Proof.
  unfold Qleb. destruct (Qle_bool a b) eqn:E; constructor.
  - now apply Qle_bool_iff.
  - intros H. apply Qle_bool_iff in H. congruence.
Qed.

Lemma Qltb_spec (a b : Q) : reflect (a < b) (Qltb a b).
Proof.
  unfold Qltb. destruct (Qle_bool b a) eqn:E; simpl; constructor.
  - apply Qle_bool_iff in E. lra.
  - destruct (Qlt_le_dec a b) as [H|H]; [exact H|].
    apply Qle_bool_iff in H. congruence.
Qed.

Lemma Qeqb_spec (a b : Q) : reflect (a == b) (Qeqb a b).
Proof.
  unfold Qeqb. destruct (Qeq_bool a b) eqn:E; constructor.
  - now apply Qeq_bool_iff.
  - intros H. apply Qeq_bool_iff in H. congruence.
Qed.

Lemma monthly_interest_eq (d : Debt) :
  monthly_interest d == balance d * (interest_rate d / 100) / 12.
Proof. apply fr_eq. Qed.

(** ** Validation *)

Lemma validate_debt_None (x : Q) (d : Debt) :
  validate_debt x d = None <-> ~ debt_rejected x d.
Proof.
  unfold validate_debt, debt_rejected.
  pose proof (monthly_interest_eq d) as Hi.
  destruct (Qleb_spec (balance d) 0); [split; [discriminate | tauto]|].
  destruct (Qltb_spec (interest_rate d) 0); [split; [discriminate | tauto]|].
  destruct (Qleb_spec (min_payment d) 0); [split; [discriminate | tauto]|].
  destruct (Qleb_spec (min_payment d) (monthly_interest d)) as [Hm|Hm];
    destruct (Qeqb_spec x 0) as [Hx|Hx]; simpl.
  - split; [discriminate|]. intros H. exfalso. apply H.
    right; right; right. split; [lra | exact Hx].
  - split; [intros _|reflexivity]. intros [?|[?|[?|[_ ?]]]]; tauto.
  - split; [intros _|reflexivity]. intros [?|[?|[?|[? _]]]]; try tauto. lra.
  - split; [intros _|reflexivity]. intros [?|[?|[?|[_ ?]]]]; tauto.
Qed.

Lemma validate_debts_None (x : Q) (debts : list Debt) :
  validate_debts x debts = None <-> Forall (fun d => ~ debt_rejected x d) debts.
Proof.
  induction debts as [|d rest IH]; simpl.
  - split; [constructor | reflexivity].
  - destruct (validate_debt x d) eqn:E.
    + split; [discriminate|]. intros H. inversion H; subst.
      apply validate_debt_None in H2. congruence.
    + rewrite IH. apply validate_debt_None in E.
      split; [now constructor | intros H; now inversion H].
Qed.

Lemma validate_None (debts : list Debt) (x : Q) :
  validate debts x = None <-> ~ input_rejected debts x.
Proof.
  unfold validate, input_rejected.
  destruct debts as [|d rest]; [split; [discriminate | tauto]|].
  destruct (validate_debts x (d :: rest)) eqn:E.
  - split; [discriminate|]. intros H. exfalso.
    assert (Hn : validate_debts x (d :: rest) <> None) by congruence.
    apply Hn, validate_debts_None, Forall_forall.
    intros d' Hin Hrej. apply H. right; left. exists d'. split; [|exact Hrej].
    apply list_elem_of_In. exact Hin.
  - apply validate_debts_None in E.
    destruct (Qltb_spec x 0) as [Hx|Hx].
    + split; [discriminate | tauto].
    + split; [intros _|reflexivity].
      intros [?|[[d' [Hin Hrej]]|?]]; [discriminate| |tauto].
      rewrite Forall_forall in E. apply (E d'); [|exact Hrej].
      apply list_elem_of_In. exact Hin.
Qed.


Lemma calculate_raises_iff (fuel : nat) (debts : list Debt) (method : string) (x : Q) (e : ValueError) :
  calculate_debt_payoff_fuel fuel debts method x = Some (inl e) <-> validate debts x = Some e.
Proof.
  unfold calculate_debt_payoff_fuel.
  destruct (validate debts x) as [e'|].
  - split; intros H; congruence.
  - destruct (while_loop _ _ _); split; intros H; congruence.
Qed.

(** ** Strategy ordering *)

Section PySortedFacts.
Context {A : Type} (key : A -> Q) (reverse : bool).

Local Abbreviation key_le := (key_le key reverse).
Local Abbreviation with_key := (with_key key).

Lemma may_precede_spec (x y : A) : reflect (key_le x y) (may_precede key reverse x y).
Proof. unfold key_le, may_precede. destruct reverse; apply Qleb_spec. Qed.

Lemma key_le_refl (x : A) : key_le x x.
Proof. unfold key_le. destruct reverse; lra. Qed.

Lemma key_le_trans (x y z : A) : key_le x y -> key_le y z -> key_le x z.
Proof. unfold key_le. destruct reverse; lra. Qed.

Lemma key_le_total (x y : A) : ~ key_le x y -> key_le y x.
Proof. unfold key_le. destruct reverse; lra. Qed.

Lemma key_le_antisym (x y : A) : key_le x y -> key_le y x -> key x == key y.
Proof. unfold key_le. destruct reverse; lra. Qed.

Lemma insert_by_perm (x : A) (l : list A) :
  Permutation (x :: l) (insert_by key reverse x l).
Proof.
  induction l as [|y t IH]; simpl; [reflexivity|].
  destruct (may_precede key reverse x y); [reflexivity|].
  rewrite perm_swap. now apply perm_skip.
Qed.

Lemma sorted_perm (l : list A) : Permutation l (sorted key reverse l).
Proof.
  induction l as [|x t IH]; simpl; [reflexivity|].
  rewrite <- insert_by_perm. now apply perm_skip.
Qed.

Lemma insert_by_sorted (x : A) (l : list A) :
  StronglySorted key_le l -> StronglySorted key_le (insert_by key reverse x l).
Proof.
  induction 1 as [|y t Hs IH Hall]; simpl.
  - repeat constructor.
  - destruct (may_precede_spec x y) as [Hxy|Hxy].
    + constructor; [now constructor|].
      constructor; [exact Hxy|].
      eapply List.Forall_impl; [|exact Hall]. intros z Hz. eapply key_le_trans; eauto.
    + constructor; [exact IH|].
      rewrite <- insert_by_perm. constructor; [now apply key_le_total | exact Hall].
Qed.

Lemma sorted_sorted (l : list A) : StronglySorted key_le (sorted key reverse l).
Proof.
  induction l as [|x t IH]; simpl; [constructor | now apply insert_by_sorted].
Qed.

Lemma insert_by_with_key (k : Q) (x : A) (l : list A) :
  with_key k (insert_by key reverse x l) = with_key k (x :: l).
Proof.
  unfold with_key. induction l as [|y t IH]; simpl; [reflexivity|].
  destruct (may_precede_spec x y) as [Hxy|Hxy]; [reflexivity|].
  simpl. rewrite IH. simpl.
  destruct (Qeqb_spec (key x) k) as [Hx|Hx]; [|reflexivity].
  destruct (Qeqb_spec (key y) k) as [Hy|Hy]; [|reflexivity].
  exfalso. apply Hxy. unfold key_le. destruct reverse; lra.
Qed.

Lemma sorted_with_key (k : Q) (l : list A) :
  with_key k (sorted key reverse l) = with_key k l.
Proof.
  induction l as [|x t IH]; simpl; [reflexivity|].
  rewrite insert_by_with_key. unfold with_key in *. simpl. now rewrite IH.
Qed.

Lemma with_key_nil (l : list A) : (forall k, with_key k l = []) -> l = [].
Proof.
  destruct l as [|y t]; [reflexivity|]. intros H. specialize (H (key y)).
  unfold with_key in H. simpl in H.
  destruct (Qeqb_spec (key y) (key y)) as [_|Hn]; [discriminate | exfalso; apply Hn; lra].
Qed.

Lemma with_key_head (x : A) (l : list A) : with_key (key x) (x :: l) = x :: with_key (key x) l.
Proof.
  unfold with_key. simpl.
  destruct (Qeqb_spec (key x) (key x)) as [_|Hn]; [reflexivity | exfalso; apply Hn; lra].
Qed.

Lemma with_key_In (k : Q) (x : A) (l : list A) : In x (with_key k l) -> In x l.
Proof. unfold with_key. intros H. apply filter_In in H. tauto. Qed.

Lemma sorted_head_le (x y : A) (t : list A) :
  StronglySorted key_le (y :: t) -> In x (y :: t) -> key_le y x.
Proof.
  intros Hs [->|Hin]; [apply key_le_refl|].
  apply StronglySorted_inv in Hs. destruct Hs as [_ Hall].
  rewrite List.Forall_forall in Hall. now apply Hall.
Qed.

(** A sorted list is determined by the order within each class of equal keys. *)
Lemma sorted_determined (l1 l2 : list A) :
  StronglySorted key_le l1 -> StronglySorted key_le l2 ->
  (forall k, with_key k l1 = with_key k l2) -> l1 = l2.
Proof.
  intros H1. revert l2. induction H1 as [|x t1 Hs1 IH Hall1]; intros l2 H2 Hk.
  - symmetry. apply with_key_nil. intros k. now rewrite <- Hk.
  - destruct l2 as [|y t2].
    + specialize (Hk (key x)). rewrite with_key_head in Hk. discriminate.
    + assert (Hxy : key_le y x).
      { apply (sorted_head_le x y t2 H2). apply (with_key_In (key x)).
        rewrite <- Hk, with_key_head. now left. }
      assert (Hyx : key_le x y).
      { apply (sorted_head_le y x t1); [now constructor|]. apply (with_key_In (key y)).
        rewrite Hk, with_key_head. now left. }
      assert (Heq : key x == key y) by now apply key_le_antisym.
      assert (x = y) as <-.
      { pose proof (Hk (key x)) as Hx. rewrite with_key_head in Hx.
        unfold with_key in Hx. simpl in Hx.
        destruct (Qeqb_spec (key y) (key x)) as [_|Hn]; [congruence | exfalso; apply Hn; lra]. }
      f_equal. apply IH; [now apply StronglySorted_inv in H2|].
      intros k. specialize (Hk k). unfold with_key in *. simpl in Hk.
      destruct (Qeqb (key x) k); congruence.
Qed.

Lemma sorted_determined_by_classes (l1 l2 : list A) :
  (forall k, with_key k l1 = with_key k l2) ->
  sorted key reverse l1 = sorted key reverse l2.
Proof.
  intros H. apply sorted_determined; try apply sorted_sorted.
  intros k. now rewrite !sorted_with_key.
Qed.
End PySortedFacts.

(** C4: the working order.  With ["snowball"] it is a rearrangement of the
    input in ascending order of balance, with ["avalanche"] in descending
    order of interest rate; debts with equal keys keep their input order;
    and the result depends on the input order only through the order
    within each class of equal keys. *)
Theorem C4_strategy_order_stable (debts : list Debt) :
  (Permutation debts (order_debts "snowball" debts)
   /\ StronglySorted (fun x y => balance x <= balance y) (order_debts "snowball" debts)
   /\ forall k, with_key balance k (order_debts "snowball" debts) = with_key balance k debts)
  /\ (Permutation debts (order_debts "avalanche" debts)
      /\ StronglySorted (fun x y => interest_rate y <= interest_rate x)
           (order_debts "avalanche" debts)
      /\ forall k, with_key interest_rate k (order_debts "avalanche" debts)
                   = with_key interest_rate k debts)
  /\ (forall debts',
        (forall k, with_key balance k debts' = with_key balance k debts) ->
        order_debts "snowball" debts' = order_debts "snowball" debts)
  /\ (forall debts',
        (forall k, with_key interest_rate k debts' = with_key interest_rate k debts) ->
        order_debts "avalanche" debts' = order_debts "avalanche" debts).
Proof.
  change (order_debts "snowball") with (sorted balance false).
  change (order_debts "avalanche") with (sorted interest_rate true).
  repeat split.
  - apply sorted_perm.
  - exact (sorted_sorted balance false debts).
  - intros k. apply sorted_with_key.
  - apply sorted_perm.
  - exact (sorted_sorted interest_rate true debts).
  - intros k. apply sorted_with_key.
  - intros debts' H. now apply sorted_determined_by_classes.
  - intros debts' H. now apply sorted_determined_by_classes.
Qed.

(** ** The loop: termination and the shape of a run *)

Lemma loop_body_month (x : Q) (s : LoopState) : l_month (loop_body x s) = S (l_month s).
Proof. unfold loop_body. destruct (month_pass _ _ _ _). reflexivity. Qed.

Lemma loop_body_results (x : Q) (s : LoopState) :
  l_results (loop_body x s)
  = l_results s ++ [month_row x (l_month s) (l_total_interest_paid s) (l_debts s)].
Proof. unfold loop_body. destruct (month_pass _ _ _ _). reflexivity. Qed.

Lemma loop_body_debts (x : Q) (s : LoopState) :
  l_debts (loop_body x s)
  = snd (month_pass x (l_month s) (l_total_interest_paid s) (l_debts s)).
Proof. unfold loop_body. destruct (month_pass _ _ _ _). reflexivity. Qed.

Lemma loop_body_tip (x : Q) (s : LoopState) :
  l_total_interest_paid (loop_body x s)
  = total_interest_paid (fst (month_pass x (l_month s) (l_total_interest_paid s) (l_debts s))).
Proof. unfold loop_body. destruct (month_pass _ _ _ _). reflexivity. Qed.

Lemma state_after_S (x : Q) (n : nat) (s : LoopState) :
  state_after x (S n) s = loop_body x (state_after x n s).
Proof. reflexivity. Qed.

Lemma state_after_shift (x : Q) (n : nat) (s : LoopState) :
  state_after x n (loop_body x s) = state_after x (S n) s.
Proof. induction n as [|n IH]; [reflexivity|]. simpl. now rewrite IH. Qed.

Lemma state_after_month (x : Q) (n : nat) (s : LoopState) :
  l_month (state_after x n s) = (l_month s + n)%nat.
Proof.
  induction n as [|n IH]; simpl; [lia|]. rewrite loop_body_month, IH. lia.
Qed.

Lemma state_after_results (x : Q) (n : nat) (s : LoopState) :
  l_results (state_after x n s) = l_results s ++ map (row_of x s) (seq 0 n).
Proof.
  induction n as [|n IH].
  - simpl. now rewrite app_nil_r.
  - rewrite seq_S, map_app, app_assoc, <- IH, state_after_S, loop_body_results.
    reflexivity.
Qed.

(** A run that stops has performed some [n] iterations, all of them with
    the loop condition true, and stops where the condition is false. *)
Lemma while_loop_Some (x : Q) (fuel : nat) (s s' : LoopState) :
  while_loop x fuel s = Some s' ->
  exists n, (n <= fuel)%nat /\ s' = state_after x n s /\ loop_cond s' = false
            /\ forall k, (k < n)%nat -> loop_cond (state_after x k s) = true.
Proof.
  revert s. induction fuel as [|fuel IH]; intros s; simpl.
  - destruct (loop_cond s) eqn:E; [discriminate|]. intros [= <-].
    exists 0%nat. repeat split; [lia | exact E | intros k Hk; lia].
  - destruct (loop_cond s) eqn:E.
    + intros H. destruct (IH _ H) as (n & Hn & -> & Hc & Hk).
      exists (S n). repeat split.
      * lia.
      * apply state_after_shift.
      * exact Hc.
      * intros [|k] Hlt; [exact E|]. rewrite <- state_after_shift. apply Hk. lia.
    + intros [= <-]. exists 0%nat. repeat split; [lia | exact E | intros k Hk; lia].
Qed.

(** The ceiling bounds the number of iterations, so that much fuel suffices. *)
Lemma while_loop_terminates (x : Q) (fuel : nat) (s : LoopState) :
  (S MAX_PAYOFF_MONTHS - l_month s <= fuel)%nat ->
  exists s', while_loop x fuel s = Some s'.
Proof.
  revert s. induction fuel as [|fuel IH]; intros s Hf; simpl.
  - destruct (loop_cond s) eqn:E; [|eauto]. exfalso.
    unfold loop_cond in E. apply andb_true_iff in E. destruct E as [_ E].
    apply Nat.leb_le in E. lia.
  - destruct (loop_cond s) eqn:E; [|eauto].
    apply IH. rewrite loop_body_month. lia.
Qed.

Lemma while_loop_more_fuel (x : Q) (fuel fuel' : nat) (s s' : LoopState) :
  while_loop x fuel s = Some s' -> (fuel <= fuel')%nat -> while_loop x fuel' s = Some s'.
Proof.
  revert s fuel'. induction fuel as [|fuel IH]; intros s fuel'; simpl.
  - destruct (loop_cond s) eqn:E; [discriminate|]. intros [= <-] _.
    destruct fuel'; simpl; now rewrite E.
  - destruct (loop_cond s) eqn:E.
    + intros H Hle. destruct fuel' as [|fuel']; [lia|]. simpl. rewrite E.
      apply IH; [exact H | lia].
    + intros [= <-] _. destruct fuel'; simpl; now rewrite E.
Qed.

Lemma any_open_true (debts : list Debt) :
  any_open debts = true <-> List.Exists (fun d => 0 < balance d) debts.
Proof.
  unfold any_open. rewrite existsb_exists, List.Exists_exists.
  split; intros (d & Hin & Hd); exists d; (split; [exact Hin|]).
  - now destruct (Qltb_spec 0 (balance d)).
  - now destruct (Qltb_spec 0 (balance d)).
Qed.

Lemma any_open_false (debts : list Debt) :
  any_open debts = false <-> List.Forall (fun d => balance d <= 0) debts.
Proof.
  unfold any_open. induction debts as [|d rest IH]; simpl.
  - split; [constructor | reflexivity].
  - rewrite orb_false_iff, IH. split.
    + intros [Hd Hr]. constructor; [|exact Hr].
      destruct (Qltb_spec 0 (balance d)); [discriminate | lra].
    + intros H. inversion H; subst. split; [|assumption].
      destruct (Qltb_spec 0 (balance d)); [lra | reflexivity].
Qed.

(** The run of the loop from the ordered debts: it stops after some
    [N <= MAX_PAYOFF_MONTHS] iterations, the first [N] at which no debt is
    open or the ceiling is passed. *)
Lemma payoff_run (x : Q) (debts : list Debt) :
  exists N, (N <= MAX_PAYOFF_MONTHS)%nat
    /\ (forall fuel, (MAX_PAYOFF_MONTHS <= fuel)%nat ->
          while_loop x fuel (initial_state debts) = Some (state_after x N (initial_state debts)))
    /\ (forall k, (k < N)%nat ->
          any_open (l_debts (state_after x k (initial_state debts))) = true)
    /\ ((N < MAX_PAYOFF_MONTHS)%nat ->
          any_open (l_debts (state_after x N (initial_state debts))) = false).
Proof.
  destruct (while_loop_terminates x MAX_PAYOFF_MONTHS (initial_state debts)) as [s' Hs'];
    [change (l_month (initial_state debts)) with 1%nat; lia|].
  destruct (while_loop_Some _ _ _ _ Hs') as (N & HN & -> & Hc & Hk).
  exists N. repeat split.
  - exact HN.
  - intros fuel Hf. eapply while_loop_more_fuel; eauto.
  - intros k Hlt. specialize (Hk k Hlt). unfold loop_cond in Hk.
    apply andb_true_iff in Hk. tauto.
  - intros Hlt. unfold loop_cond in Hc. rewrite state_after_month in Hc.
    apply andb_false_iff in Hc. destruct Hc as [Hc|Hc]; [exact Hc|].
    apply Nat.leb_gt in Hc. change (l_month (initial_state debts)) with 1%nat in Hc. lia.
Qed.

Lemma length_rows (x : Q) (s : LoopState) (N : nat) :
  length (map (row_of x s) (seq 0 N)) = N.
Proof. now rewrite length_map, length_seq. Qed.

(** What an accepted call returns: the rows of the [N] months of its run. *)
Lemma calculate_returns (debts : list Debt) (method : string) (x : Q) :
  validate debts x = None ->
  exists N, (N <= MAX_PAYOFF_MONTHS)%nat
    /\ (forall fuel, (MAX_PAYOFF_MONTHS <= fuel)%nat ->
          calculate_debt_payoff_fuel fuel debts method x
          = Some (inr (map (row_of x (initial_state (order_debts method debts))) (seq 0 N))))
    /\ (forall k, (k < N)%nat -> any_open (debts_after x method debts k) = true)
    /\ ((N < MAX_PAYOFF_MONTHS)%nat -> any_open (debts_after x method debts N) = false).
Proof.
  intros Hv. destruct (payoff_run x (order_debts method debts)) as (N & HN & Hrun & Hk & Hend).
  exists N. repeat split; try assumption.
  intros fuel Hf. unfold calculate_debt_payoff_fuel. rewrite Hv, (Hrun fuel Hf).
  now rewrite state_after_results.
Qed.

(** ** One pass over the debts *)

(** Record every reduced amount in sight, for linear arithmetic. *)
Ltac note_fr :=
  repeat match goal with
  | |- context [fr ?e] =>
      lazymatch goal with
      | _ : fr e == e |- _ => fail
      | |- _ => pose proof (fr_eq e)
      end
  | _ : context [fr ?e] |- _ =>
      lazymatch goal with
      | _ : fr e == e |- _ => fail
      | |- _ => pose proof (fr_eq e)
      end
  end.

Ltac qcases :=
  repeat match goal with
  | |- context [Qleb ?a ?b] => destruct (Qleb_spec a b)
  | |- context [Qltb ?a ?b] => destruct (Qltb_spec a b)
  | _ : context [Qleb ?a ?b] |- _ => destruct (Qleb_spec a b)
  | _ : context [Qltb ?a ?b] |- _ => destruct (Qltb_spec a b)
  end.

Lemma payment_of_payoff (pool : Q) (d : Debt) :
  balance d + monthly_interest d <= min_payment d ->
  payment_of pool d == balance d + monthly_interest d.
Proof. intros H. unfold payment_of. qcases; note_fr; lra. Qed.

Lemma payment_of_open (pool : Q) (d : Debt) :
  min_payment d < balance d + monthly_interest d ->
  payment_of pool d == min_payment d + Qmax 0 pool.
Proof.
  intros H. unfold payment_of. qcases; note_fr; try lra.
  - rewrite Q.max_r by lra. lra.
  - rewrite Q.max_l by lra. lra.
Qed.

Lemma pay_balance (pool : Q) (d : Debt) :
  balance (pay pool d) == balance d - (payment_of pool d - monthly_interest d).
Proof. unfold pay. simpl. apply fr_eq. Qed.

Lemma pool_after_eq (pool : Q) (d : Debt) :
  pool_after pool d
  == pool - Qmax 0 (payment_of pool d - (monthly_interest d + min_payment d)).
Proof.
  unfold pool_after, max0. note_fr. qcases.
  - rewrite Q.max_r by lra. lra.
  - rewrite Q.max_l by lra. lra.
Qed.

Lemma process_debt_pool (st : PassState) (d : Debt) :
  extra_remaining (fst (process_debt st d)) = step_pool (extra_remaining st) d.
Proof. unfold process_debt, step_pool. now destruct (Qleb (balance d) 0). Qed.

Lemma process_debt_debt (st : PassState) (d : Debt) :
  snd (process_debt st d) = step_debt (extra_remaining st) d.
Proof. unfold process_debt, step_debt. now destruct (Qleb (balance d) 0). Qed.

Lemma process_debt_tip (st : PassState) (d : Debt) :
  total_interest_paid (fst (process_debt st d)) == total_interest_paid st + debt_interest d.
Proof.
  unfold process_debt, debt_interest. destruct (Qleb (balance d) 0); simpl.
  - lra.
  - apply fr_eq.
Qed.

Lemma pass_debts_cons (st : PassState) (d : Debt) (rest : list Debt) :
  pass_debts st (d :: rest)
  = (fst (pass_debts (fst (process_debt st d)) rest),
     snd (process_debt st d) :: snd (pass_debts (fst (process_debt st d)) rest)).
Proof.
  simpl. destruct (process_debt st d) as [st1 d']. simpl.
  now destruct (pass_debts st1 rest).
Qed.

Lemma pass_debts_lookup (st : PassState) (debts : list Debt) (j : nat) :
  snd (pass_debts st debts) !! j
  = step_debt (pool_before (extra_remaining st) debts j) <$> debts !! j.
Proof.
  revert st j. induction debts as [|d rest IH]; intros st j; [now destruct j|].
  rewrite pass_debts_cons. destruct j as [|j]; simpl.
  - now rewrite process_debt_debt.
  - now rewrite IH, process_debt_pool.
Qed.

Lemma pass_debts_tip (st : PassState) (debts : list Debt) :
  total_interest_paid (fst (pass_debts st debts))
  == total_interest_paid st + interest_charged debts.
Proof.
  revert st. induction debts as [|d rest IH]; intros st.
  - simpl. lra.
  - rewrite pass_debts_cons. simpl fst. rewrite IH, process_debt_tip. simpl. lra.
Qed.

Lemma step_debt_name (pool : Q) (d : Debt) : name (step_debt pool d) = name d.
Proof. unfold step_debt. now destruct (Qleb (balance d) 0). Qed.

Lemma step_debt_rate (pool : Q) (d : Debt) : interest_rate (step_debt pool d) = interest_rate d.
Proof. unfold step_debt. now destruct (Qleb (balance d) 0). Qed.

Lemma step_debt_min (pool : Q) (d : Debt) : min_payment (step_debt pool d) = min_payment d.
Proof. unfold step_debt. now destruct (Qleb (balance d) 0). Qed.

(** ** Invariants of the simulation *)

Lemma validate_accepts (debts : list Debt) (x : Q) :
  validate debts x = None ->
  debts <> [] /\ 0 <= x /\ List.Forall (accepted_debt x) debts.
Proof.
  intros H. apply validate_None in H. unfold input_rejected in H.
  split; [tauto|]. split; [lra|].
  apply List.Forall_forall. intros d Hin.
  assert (Hd : ~ debt_rejected x d) by (intros Hr; apply H; right; left; eauto).
  unfold debt_rejected in Hd. unfold accepted_debt.
  repeat split; lra.
Qed.

Lemma order_debts_perm (method : string) (debts : list Debt) :
  Permutation debts (order_debts method debts).
Proof.
  unfold order_debts. destruct (String.eqb method "snowball"); [apply sorted_perm|].
  destruct (String.eqb method "avalanche"); [apply sorted_perm | reflexivity].
Qed.

Lemma monthly_interest_nonneg (d : Debt) :
  0 <= balance d -> 0 <= interest_rate d -> 0 <= monthly_interest d.
Proof.
  intros Hb Hr. rewrite monthly_interest_eq.
  apply Qle_shift_div_l; [reflexivity|]. rewrite Qmult_0_l.
  apply Qmult_le_0_compat; [exact Hb|].
  apply Qle_shift_div_l; [reflexivity|]. now rewrite Qmult_0_l.
Qed.

Lemma monthly_interest_mono (d d' : Debt) :
  interest_rate d' = interest_rate d -> 0 <= interest_rate d ->
  balance d' <= balance d -> monthly_interest d' <= monthly_interest d.
Proof.
  intros Hr H0 Hb. rewrite !monthly_interest_eq, Hr.
  apply Qmult_le_compat_r; [|discriminate].
  apply Qmult_le_compat_r; [exact Hb|].
  apply Qle_shift_div_l; [reflexivity|]. now rewrite Qmult_0_l.
Qed.

Lemma debt_interest_nonneg (d : Debt) : 0 <= interest_rate d -> 0 <= debt_interest d.
Proof.
  intros Hr. unfold debt_interest. destruct (Qleb_spec (balance d) 0); [lra|].
  apply monthly_interest_nonneg; lra.
Qed.

Lemma interest_charged_nonneg (debts : list Debt) :
  List.Forall (fun d => 0 <= interest_rate d) debts -> 0 <= interest_charged debts.
Proof.
  induction 1 as [|d rest Hd _ IH]; simpl; [lra|].
  pose proof (debt_interest_nonneg d Hd). lra.
Qed.

(** A payment never raises the balance of an amortizing debt, whatever
    the pool, and the debt stays amortizing. *)
Lemma step_debt_amortizing (pool : Q) (d : Debt) :
  amortizing d ->
  amortizing (step_debt pool d) /\ balance (step_debt pool d) <= balance d.
Proof.
  intros [Hr Hm]. pose proof (monthly_interest_eq d) as Hi.
  assert (Hle : balance (step_debt pool d) <= balance d).
  { unfold step_debt. destruct (Qleb_spec (balance d) 0); [lra|].
    rewrite pay_balance.
    destruct (Qlt_le_dec (min_payment d) (balance d + monthly_interest d)) as [Ho|Hp].
    - rewrite payment_of_open by exact Ho. pose proof (Q.le_max_l 0 pool). lra.
    - rewrite payment_of_payoff by exact Hp. lra. }
  split; [|exact Hle]. unfold amortizing.
  pose proof (monthly_interest_eq (step_debt pool d)) as Hi'.
  pose proof (monthly_interest_mono d (step_debt pool d) (step_debt_rate pool d) Hr Hle).
  rewrite step_debt_rate, step_debt_min in *. split; [exact Hr | lra].
Qed.

Lemma step_pool_le (pool : Q) (d : Debt) : step_pool pool d <= pool.
Proof.
  unfold step_pool. destruct (Qleb (balance d) 0); [lra|].
  rewrite pool_after_eq.
  pose proof (Q.le_max_l 0 (payment_of pool d - (monthly_interest d + min_payment d))). lra.
Qed.

Lemma pool_before_le (pool : Q) (debts : list Debt) (j : nat) :
  pool_before pool debts j <= pool.
Proof.
  revert pool j. induction debts as [|d rest IH]; intros pool j; simpl; [lra|].
  destruct j as [|j]; [lra|].
  pose proof (IH (step_pool pool d) j). pose proof (step_pool_le pool d). lra.
Qed.

(** ** Month after month *)

Lemma debts_after_S (x : Q) (method : string) (debts : list Debt) (n j : nat) :
  debts_after x method debts (S n) !! j
  = step_debt (pool_before x (debts_after x method debts n) j)
      <$> debts_after x method debts n !! j.
Proof.
  unfold debts_after. rewrite state_after_S, loop_body_debts.
  unfold month_pass. now rewrite pass_debts_lookup.
Qed.

Lemma interest_after_S (x : Q) (method : string) (debts : list Debt) (n : nat) :
  interest_after x method debts (S n)
  == interest_after x method debts n + interest_charged (debts_after x method debts n).
Proof.
  unfold interest_after, debts_after. rewrite state_after_S, loop_body_tip.
  unfold month_pass. now rewrite pass_debts_tip.
Qed.

(** A property of debts kept by every payment, out of any pool the pass can
    offer, holds of the debts after every month. *)
Lemma debts_after_Forall (P : Debt -> Prop) (x : Q) (method : string)
    (debts : list Debt) (n : nat) :
  (forall pool d, pool <= x -> P d -> P (step_debt pool d)) ->
  List.Forall P debts -> List.Forall P (debts_after x method debts n).
Proof.
  intros Hstep Hall. induction n as [|n IH].
  - unfold debts_after. simpl. eapply Permutation_Forall; [apply order_debts_perm | exact Hall].
  - apply Forall_lookup. intros j d Hj. rewrite debts_after_S in Hj.
    destruct (debts_after x method debts n !! j) as [d0|] eqn:E; [|discriminate].
    injection Hj as <-. apply Hstep; [apply pool_before_le|].
    rewrite Forall_lookup in IH. eapply IH; eauto.
Qed.

(** ** The rows of the ledger *)

Lemma rows_lookup (x : Q) (s : LoopState) (N n : nat) (r : gmap string Q) :
  map (row_of x s) (seq 0 N) !! n = Some r <-> (n < N)%nat /\ r = row_of x s n.
Proof.
  change (map (row_of x s) (seq 0 N)) with (row_of x s <$> seq 0 N).
  rewrite list_lookup_fmap. split.
  - intros H. destruct (seq 0 N !! n) as [k|] eqn:E; [|discriminate].
    apply lookup_seq in E. destruct E as [-> Hlt]. simpl in H. injection H as <-. now split.
  - intros [Hlt ->]. now rewrite (lookup_seq_lt 0 N n Hlt).
Qed.

(** An accepted call returns, with any fuel from the ceiling on, the rows
    of the months of its run. *)
Lemma calculate_rows (debts : list Debt) (method : string) (x : Q) :
  validate debts x = None ->
  exists ledger : Ledger,
    (forall fuel, (MAX_PAYOFF_MONTHS <= fuel)%nat ->
       calculate_debt_payoff_fuel fuel debts method x = Some (inr ledger))
    /\ (length ledger <= MAX_PAYOFF_MONTHS)%nat
    /\ (forall n r, ledger !! n = Some r <->
          (n < length ledger)%nat
          /\ r = row_of x (initial_state (order_debts method debts)) n)
    /\ (forall k, (k < length ledger)%nat -> any_open (debts_after x method debts k) = true)
    /\ ((length ledger < MAX_PAYOFF_MONTHS)%nat ->
          any_open (debts_after x method debts (length ledger)) = false).
Proof.
  intros Hv. destruct (calculate_returns debts method x Hv) as (N & HN & Hrun & Hk & Hend).
  exists (map (row_of x (initial_state (order_debts method debts))) (seq 0 N)).
  rewrite length_rows. split; [exact Hrun|]. split; [exact HN|].
  split; [|split; assumption].
  intros n r. apply rows_lookup.
Qed.

(** The rows of the ledger of an accepted call, by position. *)
Lemma ledger_row_of (debts : list Debt) (method : string) (x : Q) (n : nat) :
  validate debts x = None ->
  (n <? length (ledger_of (calculate_debt_payoff debts method x)))%nat = true ->
  calculate_debt_payoff debts method x
  = Some (inr (ledger_of (calculate_debt_payoff debts method x)))
  /\ ledger_of (calculate_debt_payoff debts method x) !! n
     = Some (row_of x (initial_state (order_debts method debts)) n).
Proof.
  intros Hv Hn. destruct (calculate_rows debts method x Hv) as (ledger & Hcalc & _ & Hrow & _).
  unfold calculate_debt_payoff in *. rewrite (Hcalc MAX_PAYOFF_MONTHS) in * by lia.
  simpl in *. split; [reflexivity|]. apply Hrow. split; [|reflexivity].
  now apply Nat.ltb_lt.
Qed.

Lemma row_of_total_interest (x : Q) (method : string) (debts : list Debt) (n : nat) :
  row_of x (initial_state (order_debts method debts)) n !! col_total_interest
  = Some (interest_after x method debts (S n)).
Proof.
  unfold row_of, month_row, interest_after. rewrite state_after_S, loop_body_tip.
  destruct (month_pass _ _ _ _) as [st debts']. simpl fst.
  apply lookup_insert_eq.
Qed.

Lemma debts_after_rates (x : Q) (method : string) (debts : list Debt) (n : nat) :
  List.Forall (accepted_debt x) debts ->
  List.Forall (fun d => 0 <= interest_rate d) (debts_after x method debts n).
Proof.
  intros H. apply debts_after_Forall.
  - intros pool d _ Hd. now rewrite step_debt_rate.
  - eapply List.Forall_impl; [|exact H]. intros d Hd. apply Hd.
Qed.

Lemma interest_after_through (x : Q) (method : string) (debts : list Debt) (n : nat) :
  interest_after x method debts n == interest_charged_through x method debts n.
Proof.
  induction n as [|n IH]; [reflexivity|].
  rewrite interest_after_S. simpl. now rewrite IH.
Qed.

(** C7: the cumulative interest column never decreases from one row of the
    ledger to the next. *)
Theorem C7_total_interest_nondecreasing (debts : list Debt) (method : string)
    (extra_payment : Q) :
  validate debts extra_payment = None ->
  exists ledger : Ledger,
    calculate_debt_payoff debts method extra_payment = Some (inr ledger)
    /\ (forall n r, ledger !! n = Some r -> is_Some (r !! col_total_interest))
    /\ (forall n r r' v v',
          ledger !! n = Some r -> ledger !! S n = Some r' ->
          r !! col_total_interest = Some v -> r' !! col_total_interest = Some v' ->
          v <= v').
Proof.
  intros Hv. destruct (calculate_rows debts method extra_payment Hv)
    as (ledger & Hcalc & _ & Hrow & _).
  exists ledger. split; [apply Hcalc; lia|]. split.
  - intros n r Hr. apply Hrow in Hr. destruct Hr as [_ ->].
    rewrite row_of_total_interest. eauto.
  - intros n r r' v v' Hr Hr' Hv1 Hv2.
    apply Hrow in Hr, Hr'. destruct Hr as [_ ->]. destruct Hr' as [_ ->].
    rewrite row_of_total_interest in Hv1, Hv2.
    injection Hv1 as <-. injection Hv2 as <-.
    rewrite (interest_after_S _ _ _ (S n)).
    pose proof (interest_charged_nonneg (debts_after extra_payment method debts (S n))) as Hc.
    apply validate_accepts in Hv. destruct Hv as (_ & _ & Hall).
    specialize (Hc (debts_after_rates _ _ _ _ Hall)). lra.
Qed.

Lemma C7_witness :
  validate card_and_loan 100 = None
  /\ exists ledger : Ledger,
       calculate_debt_payoff card_and_loan "snowball" 100 = Some (inr ledger)
       /\ (forall n r, ledger !! n = Some r -> is_Some (r !! col_total_interest))
       /\ (forall n r r' v v',
             ledger !! n = Some r -> ledger !! S n = Some r' ->
             r !! col_total_interest = Some v -> r' !! col_total_interest = Some v' ->
             v <= v').
Proof.
  split; [reflexivity|].
  apply (C7_total_interest_nondecreasing card_and_loan "snowball" 100).
  reflexivity.
Defined.

(** ** Column names *)

Lemma string_app_cons (c : ascii) (s t : string) : String c s +:+ t = String c (s +:+ t).
Proof. reflexivity. Qed.

Lemma string_app_length (s t : string) :
  String.length (s +:+ t) = (String.length s + String.length t)%nat.
Proof.
  induction s as [|c s IH]; [reflexivity|].
  rewrite string_app_cons. simpl. now rewrite IH.
Qed.

Lemma string_app_nil_r (s : string) : s +:+ EmptyString = s.
Proof.
  induction s as [|c s IH]; [reflexivity|]. now rewrite string_app_cons, IH.
Qed.

Lemma string_app_eq_app (s1 s2 t1 t2 : string) :
  s1 +:+ t1 = s2 +:+ t2 ->
  (exists u, t1 = u +:+ t2 /\ s2 = s1 +:+ u) \/ (exists u, t2 = u +:+ t1 /\ s1 = s2 +:+ u).
Proof.
  revert s2. induction s1 as [|c s1 IH]; intros s2 H.
  - left. exists s2. split; [exact H | reflexivity].
  - destruct s2 as [|c2 s2].
    + right. exists (String c s1). split; [symmetry; exact H | reflexivity].
    + rewrite !string_app_cons in H. injection H as -> H. destruct (IH _ H) as [(u & Hu & ->)|(u & Hu & ->)].
      * left. exists u. split; [exact Hu | reflexivity].
      * right. exists u. split; [exact Hu | reflexivity].
Qed.

Lemma is_suffix_app (u t : string) : is_suffix t (u +:+ t) = true.
Proof.
  induction u as [|c u IH].
  - change (EmptyString +:+ t) with t. destruct t; cbn [is_suffix]; now rewrite String.eqb_refl.
  - rewrite string_app_cons. cbn [is_suffix]. rewrite IH. apply orb_true_r.
Qed.

(** Names followed by suffixes neither of which ends with the other differ. *)
Lemma string_app_suffix_neq (s1 s2 t1 t2 : string) :
  is_suffix t1 t2 = false -> is_suffix t2 t1 = false -> s1 +:+ t1 <> s2 +:+ t2.
Proof.
  intros H12 H21 H. destruct (string_app_eq_app _ _ _ _ H) as [(u & Hu & _)|(u & Hu & _)].
  - rewrite Hu, is_suffix_app in H21. discriminate.
  - rewrite Hu, is_suffix_app in H12. discriminate.
Qed.

Lemma string_app_inv_r (s1 s2 t : string) : s1 +:+ t = s2 +:+ t -> s1 = s2.
Proof.
  intros H.
  assert (Hnil : forall u, t = u +:+ t -> u = EmptyString).
  { intros u Hu. apply (f_equal String.length) in Hu. rewrite string_app_length in Hu.
    destruct u; [reflexivity | simpl in Hu; lia]. }
  destruct (string_app_eq_app _ _ _ _ H) as [(u & Hu & ->)|(u & Hu & ->)];
    rewrite (Hnil u Hu), string_app_nil_r; reflexivity.
Qed.

Lemma debt_prefix_inv (s t : string) : "Debt " +:+ s = "Debt " +:+ t -> s = t.
Proof. rewrite !string_app_cons. intros H. now injection H. Qed.

Lemma col_balance_inj (n1 n2 : string) : col_balance n1 = col_balance n2 -> n1 = n2.
Proof. intros H. apply debt_prefix_inv in H. eapply string_app_inv_r; eauto. Qed.

Lemma col_payment_inj (n1 n2 : string) : col_payment n1 = col_payment n2 -> n1 = n2.
Proof. intros H. apply debt_prefix_inv in H. eapply string_app_inv_r; eauto. Qed.

Lemma col_interest_inj (n1 n2 : string) : col_interest n1 = col_interest n2 -> n1 = n2.
Proof. intros H. apply debt_prefix_inv in H. eapply string_app_inv_r; eauto. Qed.

Lemma col_balance_payment (n1 n2 : string) : col_balance n1 <> col_payment n2.
Proof. intros H. apply debt_prefix_inv in H. revert H. now apply string_app_suffix_neq. Qed.

Lemma col_balance_interest (n1 n2 : string) : col_balance n1 <> col_interest n2.
Proof. intros H. apply debt_prefix_inv in H. revert H. now apply string_app_suffix_neq. Qed.

Lemma col_payment_interest (n1 n2 : string) : col_payment n1 <> col_interest n2.
Proof. intros H. apply debt_prefix_inv in H. revert H. now apply string_app_suffix_neq. Qed.

(** The columns of differently named debts are different columns. *)
Lemma debt_columns_disjoint (n1 n2 k : string) :
  n1 <> n2 -> In k (debt_columns n1) -> ~ In k (debt_columns n2).
Proof.
  intros Hne H1 H2. unfold debt_columns in *. simpl in H1, H2.
  pose proof (col_balance_payment n1 n2). pose proof (col_balance_payment n2 n1).
  pose proof (col_balance_interest n1 n2). pose proof (col_balance_interest n2 n1).
  pose proof (col_payment_interest n1 n2). pose proof (col_payment_interest n2 n1).
  destruct H1 as [<-|[<-|[<-|[]]]]; destruct H2 as [H2|[H2|[H2|[]]]];
    try congruence; apply Hne; symmetry;
    first [ now apply col_balance_inj | now apply col_payment_inj | now apply col_interest_inj ].
Qed.

Lemma fixed_columns_not_debt (n : string) :
  ~ In col_month (debt_columns n) /\ ~ In col_total_payment (debt_columns n)
  /\ ~ In col_total_interest (debt_columns n).
Proof.
  unfold debt_columns, col_balance, col_payment, col_interest. simpl.
  repeat split; intros [H|[H|[H|[]]]]; discriminate.
Qed.

(** ** What a pass writes into the month's row *)

Lemma process_debt_other (st : PassState) (d : Debt) (k : string) :
  ~ In k (debt_columns (name d)) ->
  monthly_summary (fst (process_debt st d)) !! k = monthly_summary st !! k.
Proof.
  intros Hk. unfold process_debt. destruct (Qleb (balance d) 0); [reflexivity|].
  simpl in *. rewrite !lookup_insert_ne by tauto. reflexivity.
Qed.

Lemma process_debt_open (st : PassState) (d : Debt) :
  0 < balance d ->
  let summary := monthly_summary (fst (process_debt st d)) in
  summary !! col_balance (name d) = Some (balance (pay (extra_remaining st) d))
  /\ summary !! col_payment (name d) = Some (payment_of (extra_remaining st) d)
  /\ summary !! col_interest (name d) = Some (monthly_interest d).
Proof.
  intros Hb. unfold process_debt. destruct (Qleb_spec (balance d) 0); [lra|].
  pose proof (col_balance_payment (name d) (name d)).
  pose proof (col_balance_interest (name d) (name d)).
  pose proof (col_payment_interest (name d) (name d)).
  simpl. repeat split.
  - rewrite !lookup_insert_ne by congruence. apply lookup_insert_eq.
  - rewrite lookup_insert_ne by congruence. apply lookup_insert_eq.
  - apply lookup_insert_eq.
Qed.



(** A column is left alone by a pass if no open debt owns it. *)
Lemma pass_debts_other (st : PassState) (debts : list Debt) (k : string) :
  (forall d, In d debts -> 0 < balance d -> ~ In k (debt_columns (name d))) ->
  monthly_summary (fst (pass_debts st debts)) !! k = monthly_summary st !! k.
Proof.
  revert st. induction debts as [|d rest IH]; intros st H; [reflexivity|].
  rewrite pass_debts_cons. simpl fst. rewrite IH by (intros; apply H; simpl; auto).
  unfold process_debt. destruct (Qleb_spec (balance d) 0); [reflexivity|].
  assert (Hk : ~ In k (debt_columns (name d))) by (apply H; [now left | lra]).
  simpl in *. rewrite !lookup_insert_ne by tauto. reflexivity.
Qed.


(** With distinct names, the columns of an open debt hold what its own
    payment produced. *)
Lemma pass_debts_open (st : PassState) (debts : list Debt) (j : nat) (d : Debt) :
  NoDup (map name debts) -> debts !! j = Some d -> 0 < balance d ->
  let pool := pool_before (extra_remaining st) debts j in
  let summary := monthly_summary (fst (pass_debts st debts)) in
  summary !! col_balance (name d) = Some (balance (pay pool d))
  /\ summary !! col_payment (name d) = Some (payment_of pool d)
  /\ summary !! col_interest (name d) = Some (monthly_interest d).
Proof.
  revert st j. induction debts as [|d0 rest IH]; intros st j Hnd Hj Hb; [destruct j; discriminate|].
  apply NoDup_cons in Hnd. destruct Hnd as [Hnotin Hnd].
  rewrite pass_debts_cons. simpl fst. destruct j as [|j].
  - injection Hj as ->. simpl.
    assert (Hother : forall k, In k (debt_columns (name d)) ->
              monthly_summary (fst (pass_debts (fst (process_debt st d)) rest)) !! k
              = monthly_summary (fst (process_debt st d)) !! k).
    { intros k Hk. apply pass_debts_other. intros d' Hin' _.
      apply (debt_columns_disjoint (name d) (name d') k); [|exact Hk].
      intros Heq. apply Hnotin. rewrite Heq. apply list_elem_of_In. now apply in_map. }
    destruct (process_debt_open st d Hb) as (H1 & H2 & H3).
    rewrite !Hother by (simpl; tauto). now repeat split.
  - simpl in Hj. simpl pool_before. rewrite <- process_debt_pool. now apply IH.
Qed.


Lemma initial_summary_debt_col (m : nat) (tip : Q) (n k : string) :
  In k (debt_columns n) -> initial_summary m tip !! k = None.
Proof.
  intros Hk. destruct (fixed_columns_not_debt n) as (H1 & H2 & H3).
  unfold initial_summary. rewrite !lookup_insert_ne; [apply lookup_empty| | |];
    intros <-; tauto.
Qed.

Lemma month_row_debt_col (x : Q) (m : nat) (tip : Q) (debts : list Debt) (n k : string) :
  In k (debt_columns n) ->
  month_row x m tip debts !! k = monthly_summary (fst (month_pass x m tip debts)) !! k.
Proof.
  intros Hk. destruct (fixed_columns_not_debt n) as (H1 & H2 & H3).
  unfold month_row. destruct (month_pass x m tip debts) as [st debts']. simpl fst.
  rewrite !lookup_insert_ne; [reflexivity| |]; intros <-; tauto.
Qed.


Lemma sum_payments_ext (s1 s2 : gmap string Q) (debts1 debts2 : list Debt) :
  map name debts1 = map name debts2 ->
  (forall n, s1 !! col_payment n = s2 !! col_payment n) ->
  sum_payments s1 debts1 = sum_payments s2 debts2.
Proof.
  intros Hn Hs. unfold sum_payments. generalize 0 as acc.
  revert debts2 Hn. induction debts1 as [|d1 rest1 IH]; intros [|d2 rest2] Hn acc;
    try discriminate; [reflexivity|].
  simpl in Hn. injection Hn as Hd Hrest. simpl. rewrite Hd, Hs. now apply IH.
Qed.

Lemma pass_debts_names (st : PassState) (debts : list Debt) :
  map name (snd (pass_debts st debts)) = map name debts.
Proof.
  revert st. induction debts as [|d rest IH]; intros st; [reflexivity|].
  rewrite pass_debts_cons. simpl. now rewrite IH, process_debt_debt, step_debt_name.
Qed.

(** The total is the sum of the payment columns present in the row itself. *)
Lemma month_row_total_payment (x : Q) (m : nat) (tip : Q) (debts : list Debt) :
  month_row x m tip debts !! col_total_payment
  = Some (sum_payments (month_row x m tip debts) debts).
Proof.
  pose proof (fun n => month_row_debt_col x m tip debts n (col_payment n)) as Hcol.
  pose proof (pass_debts_names (mkPass x tip (initial_summary m tip)) debts) as Hn.
  unfold month_row, month_pass in *. destruct (pass_debts _ debts) as [st debts'].
  simpl in Hcol, Hn. rewrite lookup_insert_ne by discriminate. rewrite lookup_insert_eq.
  f_equal. apply sum_payments_ext; [exact Hn|].
  intros n. symmetry. apply Hcol. simpl. tauto.
Qed.

Lemma debts_after_names (x : Q) (method : string) (debts : list Debt) (n : nat) :
  map name (debts_after x method debts n) = map name (order_debts method debts).
Proof.
  induction n as [|n IH]; [reflexivity|]. rewrite <- IH.
  unfold debts_after. rewrite state_after_S, loop_body_debts. apply pass_debts_names.
Qed.

Lemma debts_after_NoDup (x : Q) (method : string) (debts : list Debt) (n : nat) :
  NoDup (map name debts) -> NoDup (map name (debts_after x method debts n)).
Proof.
  intros H. rewrite debts_after_names.
  pose proof (Permutation_map name (order_debts_perm method debts)) as Hp.
  now rewrite <- Hp.
Qed.

Lemma row_of_unfold (x : Q) (method : string) (debts : list Debt) (n : nat) :
  row_of x (initial_state (order_debts method debts)) n
  = month_row x (S n) (interest_after x method debts n) (debts_after x method debts n).
Proof.
  unfold row_of, interest_after, debts_after. rewrite state_after_month.
  reflexivity.
Qed.


Lemma row_of_open (x : Q) (method : string) (debts : list Debt) (n j : nat) (d : Debt) :
  NoDup (map name debts) ->
  debts_after x method debts n !! j = Some d -> 0 < balance d ->
  let pool := pool_before x (debts_after x method debts n) j in
  let r := row_of x (initial_state (order_debts method debts)) n in
  debts_after x method debts (S n) !! j = Some (pay pool d)
  /\ r !! col_balance (name d) = Some (balance (pay pool d))
  /\ r !! col_payment (name d) = Some (payment_of pool d)
  /\ r !! col_interest (name d) = Some (monthly_interest d).
Proof.
  intros Hnd Hj Hb. simpl. split.
  - rewrite debts_after_S, Hj. simpl. unfold step_debt.
    destruct (Qleb_spec (balance d) 0); [lra | reflexivity].
  - rewrite row_of_unfold.
    rewrite !(month_row_debt_col _ _ _ _ (name d)) by (simpl; tauto).
    unfold month_pass.
    exact (pass_debts_open (mkPass x _ _) _ j d (debts_after_NoDup x method debts n Hnd) Hj Hb).
Qed.


(** ** The contents of a row *)




(** ** Conservation *)

(** C6: whenever a debt is processed (its balance is positive when the
    month starts), its balance goes down by the payment minus the month's
    interest, the interest being [balance * (interest_rate / 100) / 12] on
    the balance before the payment; with distinct names these are the
    payment and interest written in the row.  The cumulative interest in
    row [n] is the sum of the interest charged to all debts in the months
    up to and including that one. *)
Theorem C6_conservation (debts : list Debt) (method : string) (extra_payment : Q) :
  validate debts extra_payment = None ->
  exists ledger : Ledger,
    calculate_debt_payoff debts method extra_payment = Some (inr ledger)
    /\ (forall n j d,
          (n < length ledger)%nat ->
          debts_after extra_payment method debts n !! j = Some d -> 0 < balance d ->
          exists d' payment interest,
            debts_after extra_payment method debts (S n) !! j = Some d'
            /\ payment = payment_of
                           (pool_before extra_payment
                              (debts_after extra_payment method debts n) j) d
            /\ interest == balance d * (interest_rate d / 100) / 12
            /\ balance d - balance d' == payment - interest
            /\ (NoDup (map name debts) -> forall r, ledger !! n = Some r ->
                  r !! col_balance (name d) = Some (balance d')
                  /\ r !! col_payment (name d) = Some payment
                  /\ r !! col_interest (name d) = Some interest))
    /\ (forall n r, ledger !! n = Some r ->
          exists total, r !! col_total_interest = Some total
            /\ total == interest_charged_through extra_payment method debts (S n)).
Proof.
  intros Hv. destruct (calculate_rows debts method extra_payment Hv)
    as (ledger & Hcalc & _ & Hrow & _).
  exists ledger. split; [apply Hcalc; lia|]. split.
  - intros n j d Hn Hj Hb.
    set (pool := pool_before extra_payment (debts_after extra_payment method debts n) j).
    exists (pay pool d), (payment_of pool d), (monthly_interest d).
    split; [|split; [reflexivity|split; [apply monthly_interest_eq|split]]].
    + rewrite debts_after_S, Hj. simpl. unfold step_debt.
      destruct (Qleb_spec (balance d) 0); [lra | reflexivity].
    + rewrite pay_balance. lra.
    + intros Hnd r Hr. apply Hrow in Hr. destruct Hr as [_ ->].
      now apply row_of_open.
  - intros n r Hr. apply Hrow in Hr. destruct Hr as [_ ->].
    exists (interest_after extra_payment method debts (S n)).
    split; [apply row_of_total_interest | apply interest_after_through].
Qed.

Lemma C6_witness :
  validate card_and_loan 100 = None
  /\ exists ledger : Ledger,
       calculate_debt_payoff card_and_loan "avalanche" 100 = Some (inr ledger)
       /\ (forall n j d,
             (n < length ledger)%nat ->
             debts_after 100 "avalanche" card_and_loan n !! j = Some d -> 0 < balance d ->
             exists d' payment interest,
               debts_after 100 "avalanche" card_and_loan (S n) !! j = Some d'
               /\ payment = payment_of
                              (pool_before 100 (debts_after 100 "avalanche" card_and_loan n) j) d
               /\ interest == balance d * (interest_rate d / 100) / 12
               /\ balance d - balance d' == payment - interest
               /\ (NoDup (map name card_and_loan) -> forall r, ledger !! n = Some r ->
                     r !! col_balance (name d) = Some (balance d')
                     /\ r !! col_payment (name d) = Some payment
                     /\ r !! col_interest (name d) = Some interest))
       /\ (forall n r, ledger !! n = Some r ->
             exists total, r !! col_total_interest = Some total
               /\ total == interest_charged_through 100 "avalanche" card_and_loan (S n)).
Proof.
  split; [reflexivity|].
  apply (C6_conservation card_and_loan "avalanche" 100). reflexivity.
Defined.

(** ** Balances from month to month *)

Lemma accepted_amortizing (x : Q) (debts : list Debt) :
  List.Forall (accepted_debt x) debts ->
  x == 0 \/ List.Forall amortizing debts -> List.Forall amortizing debts.
Proof.
  intros Hacc [Hx|H]; [|exact H].
  eapply List.Forall_impl; [|exact Hacc]. intros d (_ & Hr & _ & Hm). split; auto.
Qed.

(** A balance column in a row belongs to a debt open when the month starts. *)
Lemma pass_debts_balance_inv (st : PassState) (debts : list Debt) (nm : string) (v : Q) :
  monthly_summary (fst (pass_debts st debts)) !! col_balance nm = Some v ->
  monthly_summary st !! col_balance nm = Some v
  \/ exists j d, debts !! j = Some d /\ name d = nm /\ 0 < balance d.
Proof.
  revert st. induction debts as [|d rest IH]; intros st H; [now left|].
  rewrite pass_debts_cons in H. simpl fst in H.
  destruct (IH _ H) as [H1|(j & d' & Hj & Hn & Hb)]; [|right; exists (S j), d'; auto].
  destruct (Qlt_le_dec 0 (balance d)) as [Hb|Hb].
  - destruct (string_dec (name d) nm) as [Heq|Hne]; [right; exists 0%nat, d; auto|].
    left. rewrite process_debt_other in H1; [exact H1|].
    apply (debt_columns_disjoint nm (name d)); [congruence | simpl; tauto].
  - left. unfold process_debt in H1. destruct (Qleb_spec (balance d) 0); [exact H1 | lra].
Qed.

Lemma row_of_balance_inv (x : Q) (method : string) (debts : list Debt) (n : nat)
    (nm : string) (v : Q) :
  NoDup (map name debts) ->
  row_of x (initial_state (order_debts method debts)) n !! col_balance nm = Some v ->
  exists j d d', debts_after x method debts n !! j = Some d /\ name d = nm
    /\ debts_after x method debts (S n) !! j = Some d' /\ v = balance d'.
Proof.
  intros Hnd Hv. pose proof Hv as Hv0.
  rewrite row_of_unfold, (month_row_debt_col _ _ _ _ nm) in Hv0 by (simpl; tauto).
  unfold month_pass in Hv0. apply pass_debts_balance_inv in Hv0.
  destruct Hv0 as [Hi|(j & d & Hj & Hn & Hb)].
  - simpl in Hi. rewrite (initial_summary_debt_col _ _ nm) in Hi by (simpl; tauto). discriminate.
  - destruct (row_of_open x method debts n j d Hnd Hj Hb) as (Hd' & Hbal & _).
    exists j, d, (pay (pool_before x (debts_after x method debts n) j) d).
    repeat split; try assumption. rewrite Hn in Hbal. congruence.
Qed.

Lemma debts_after_same_position (x : Q) (method : string) (debts : list Debt)
    (n n' j j' : nat) (d d' : Debt) :
  NoDup (map name debts) ->
  debts_after x method debts n !! j = Some d ->
  debts_after x method debts n' !! j' = Some d' ->
  name d = name d' -> j = j'.
Proof.
  intros Hnd Hj Hj' Hn.
  pose proof (debts_after_NoDup x method debts n Hnd) as Hnd'.
  eapply NoDup_lookup; [exact Hnd'| |].
  - rewrite list_lookup_fmap, Hj. reflexivity.
  - change (map name (debts_after x method debts n))
      with (name <$> debts_after x method debts n).
    assert (Heq : name <$> debts_after x method debts n = name <$> debts_after x method debts n').
    { change (map name (debts_after x method debts n) = map name (debts_after x method debts n')).
      now rewrite !debts_after_names. }
    rewrite Heq, list_lookup_fmap, Hj'. simpl. now rewrite Hn.
Qed.

Lemma debts_after_origin (x : Q) (method : string) (debts : list Debt) (n j : nat)
    (d : Debt) :
  debts_after x method debts n !! j = Some d ->
  exists d0, order_debts method debts !! j = Some d0 /\ name d0 = name d.
Proof.
  intros Hj.
  assert (H : (name <$> debts_after x method debts n) !! j = Some (name d))
    by (rewrite list_lookup_fmap, Hj; reflexivity).
  change (name <$> debts_after x method debts n)
    with (map name (debts_after x method debts n)) in H.
  rewrite debts_after_names in H.
  change (map name (order_debts method debts))
    with (name <$> order_debts method debts) in H.
  rewrite list_lookup_fmap in H.
  destruct (order_debts method debts !! j) as [d0|]; [|discriminate].
  exists d0. split; [reflexivity|]. simpl in H. congruence.
Qed.

(** A debt that is amortizing when the simulation starts stays so, whatever
    the other debts are. *)
Lemma stays_amortizing (x : Q) (method : string) (debts : list Debt) (n j : nat)
    (d0 d : Debt) :
  order_debts method debts !! j = Some d0 -> amortizing d0 ->
  debts_after x method debts n !! j = Some d -> amortizing d.
Proof.
  intros H0 Ha. revert d. induction n as [|n IH]; intros d Hj.
  - unfold debts_after in Hj. simpl in Hj. congruence.
  - rewrite debts_after_S in Hj.
    destruct (debts_after x method debts n !! j) as [dn|]; [|discriminate].
    injection Hj as <-. apply step_debt_amortizing. now apply IH.
Qed.

Lemma same_name_same_debt (l : list Debt) (d1 d2 : Debt) :
  NoDup (map name l) -> In d1 l -> In d2 l -> name d1 = name d2 -> d1 = d2.
Proof.
  intros Hnd H1 H2 Hn.
  apply list_elem_of_In, list_elem_of_lookup in H1, H2.
  destruct H1 as [i1 H1]. destruct H2 as [i2 H2].
  assert (i1 = i2).
  { eapply NoDup_lookup; [exact Hnd | |]; rewrite list_lookup_fmap.
    - rewrite H1. reflexivity.
    - rewrite H2. simpl. now rewrite Hn. }
  subst i2. congruence.
Qed.

(** C1, as the code has it: in an accepted run, the balance of every debt
    whose minimum payment exceeds a month of interest on its balance is
    non-increasing from one month to the next, whatever the other debts
    and the extra payment are; validation sees to it that every debt is
    such a debt when there is no extra payment.  With distinct debt names
    the same holds of that debt's balance column in successive rows of the
    ledger.  No lower bound on the balances is part of the statement. *)
Theorem C1_balances_nonincreasing (debts : list Debt) (method : string)
    (extra_payment : Q) :
  validate debts extra_payment = None ->
  exists ledger : Ledger,
    calculate_debt_payoff debts method extra_payment = Some (inr ledger)
    /\ (extra_payment == 0 -> List.Forall amortizing debts)
    /\ (forall j d0,
          order_debts method debts !! j = Some d0 -> amortizing d0 ->
          forall n d d',
            debts_after extra_payment method debts n !! j = Some d ->
            debts_after extra_payment method debts (S n) !! j = Some d' ->
            balance d' <= balance d)
    /\ (NoDup (map name debts) ->
        forall d0, In d0 debts -> amortizing d0 ->
        forall n r r' v v',
          ledger !! n = Some r -> ledger !! S n = Some r' ->
          r !! col_balance (name d0) = Some v ->
          r' !! col_balance (name d0) = Some v' ->
          v' <= v).
Proof.
  intros Hv. destruct (calculate_rows debts method extra_payment Hv)
    as (ledger & Hcalc & _ & Hrow & _).
  apply validate_accepts in Hv. destruct Hv as (_ & _ & Hacc).
  assert (Hstep : forall j d0,
            order_debts method debts !! j = Some d0 -> amortizing d0 ->
            forall n d d',
              debts_after extra_payment method debts n !! j = Some d ->
              debts_after extra_payment method debts (S n) !! j = Some d' ->
              balance d' <= balance d).
  { intros j d0 H0 Ha n d d' Hj Hj'.
    pose proof (stays_amortizing _ _ _ _ _ _ _ H0 Ha Hj) as Had.
    rewrite debts_after_S, Hj in Hj'. injection Hj' as <-.
    now apply step_debt_amortizing. }
  exists ledger. split; [apply Hcalc; lia|]. split; [|split; [exact Hstep|]].
  - intros Hx. apply (accepted_amortizing extra_payment); [exact Hacc | now left].
  - intros Hnd d0 Hin Ha n r r' v v' Hr Hr' Hc Hc'.
    apply Hrow in Hr, Hr'. destruct Hr as [_ ->]. destruct Hr' as [_ ->].
    apply (row_of_balance_inv _ _ _ _ _ _ Hnd) in Hc, Hc'.
    destruct Hc as (j & d & d1 & Hj & Hn & Hj1 & ->).
    destruct Hc' as (j' & e & e1 & Hj' & Hn' & Hj1' & ->).
    assert (j = j') as <-.
    { eapply (debts_after_same_position _ _ _ n (S n)); eauto. congruence. }
    destruct (debts_after_origin _ _ _ _ _ _ Hj) as (o0 & Ho0 & Hname).
    assert (o0 = d0) as ->.
    { apply (same_name_same_debt debts); [exact Hnd | | exact Hin | congruence].
      apply (Permutation_in (l := order_debts method debts));
        [symmetry; apply order_debts_perm|].
      apply list_elem_of_In, list_elem_of_lookup. eauto. }
    assert (e = d1) as -> by congruence.
    exact (Hstep j d0 Ho0 Ha (S n) d1 e1 Hj1 Hj1').
Qed.

Lemma C1_witness :
  validate rising_and_overpaid 50 = None
  /\ order_debts "snowball" rising_and_overpaid !! 0%nat = Some (mkDebt "A" 90 0 10)
  /\ amortizing (mkDebt "A" 90 0 10)
  /\ exists ledger : Ledger,
       calculate_debt_payoff rising_and_overpaid "snowball" 50 = Some (inr ledger)
       /\ (50 == 0 -> List.Forall amortizing rising_and_overpaid)
       /\ (forall j d0,
             order_debts "snowball" rising_and_overpaid !! j = Some d0 -> amortizing d0 ->
             forall n d d',
               debts_after 50 "snowball" rising_and_overpaid n !! j = Some d ->
               debts_after 50 "snowball" rising_and_overpaid (S n) !! j = Some d' ->
               balance d' <= balance d)
       /\ (NoDup (map name rising_and_overpaid) ->
           forall d0, In d0 rising_and_overpaid -> amortizing d0 ->
           forall n r r' v v',
             ledger !! n = Some r -> ledger !! S n = Some r' ->
             r !! col_balance (name d0) = Some v ->
             r' !! col_balance (name d0) = Some v' ->
             v' <= v).
Proof.
  split; [reflexivity|]. split; [reflexivity|].
  split; [split; [vm_compute; discriminate | vm_compute; reflexivity]|].
  apply (C1_balances_nonincreasing rising_and_overpaid "snowball" 50). reflexivity.
Defined.

(** C1 fails as stated: this input is accepted, yet debt B's recorded
    balance rises from the first row to the second, and debt A's recorded
    balance in the second row is negative. *)
Lemma C1_counterexample :
  validate rising_and_overpaid 50 = None
  /\ exists (ledger : Ledger) (r0 r1 : gmap string Q) (b0 b1 a1 : Q),
       calculate_debt_payoff rising_and_overpaid "snowball" 50 = Some (inr ledger)
       /\ ledger !! 0%nat = Some r0 /\ ledger !! 1%nat = Some r1
       /\ r0 !! col_balance "B" = Some b0 /\ r1 !! col_balance "B" = Some b1
       /\ b0 < b1
       /\ r1 !! col_balance "A" = Some a1 /\ a1 < 0.
Proof.
  split; [reflexivity|].
  exists (ledger_of (calculate_debt_payoff rising_and_overpaid "snowball" 50)).
  exists (row_of 50 (initial_state (order_debts "snowball" rising_and_overpaid)) 0).
  exists (row_of 50 (initial_state (order_debts "snowball" rising_and_overpaid)) 1).
  exists 101, (5101 # 50), (-30).
  destruct (ledger_row_of rising_and_overpaid "snowball" 50 0) as [Hcalc Hrow0];
    [reflexivity | vm_compute; reflexivity |].
  destruct (ledger_row_of rising_and_overpaid "snowball" 50 1) as [_ Hrow1];
    [reflexivity | vm_compute; reflexivity |].
  split; [exact Hcalc|]. split; [exact Hrow0|]. split; [exact Hrow1|].
  split; [vm_compute; reflexivity|]. split; [vm_compute; reflexivity|].
  split; [vm_compute; reflexivity|]. split; vm_compute; reflexivity.
Qed.

(** ** Termination *)

(** C2, as the code has it: an accepted call returns, with any fuel from
    the ceiling on, a ledger of at most 1200 rows; every month it records
    starts with some debt's balance positive, and if it records fewer than
    1200 months no balance is positive at the end. *)
Theorem C2_terminates_within_ceiling (debts : list Debt) (method : string)
    (extra_payment : Q) :
  validate debts extra_payment = None ->
  exists ledger : Ledger,
    (forall fuel, (MAX_PAYOFF_MONTHS <= fuel)%nat ->
       calculate_debt_payoff_fuel fuel debts method extra_payment = Some (inr ledger))
    /\ calculate_debt_payoff debts method extra_payment = Some (inr ledger)
    /\ (length ledger <= 1200)%nat
    /\ (forall n, (n < length ledger)%nat ->
          List.Exists (fun d => 0 < balance d) (debts_after extra_payment method debts n))
    /\ ((length ledger < 1200)%nat ->
          List.Forall (fun d => balance d <= 0)
            (debts_after extra_payment method debts (length ledger))).
Proof.
  intros Hv. destruct (calculate_rows debts method extra_payment Hv)
    as (ledger & Hcalc & Hlen & _ & Hopen & Hend).
  exists ledger. split; [exact Hcalc|]. split; [apply Hcalc; lia|].
  split; [exact Hlen|]. split.
  - intros n Hn. now apply any_open_true, Hopen.
  - intros Hlt. now apply any_open_false, Hend.
Qed.

Lemma C2_witness :
  validate scenario_a 0 = None
  /\ exists ledger : Ledger,
       (forall fuel, (MAX_PAYOFF_MONTHS <= fuel)%nat ->
          calculate_debt_payoff_fuel fuel scenario_a "snowball" 0 = Some (inr ledger))
       /\ calculate_debt_payoff scenario_a "snowball" 0 = Some (inr ledger)
       /\ (length ledger <= 1200)%nat
       /\ (forall n, (n < length ledger)%nat ->
             List.Exists (fun d => 0 < balance d) (debts_after 0 "snowball" scenario_a n))
       /\ ((length ledger < 1200)%nat ->
             List.Forall (fun d => balance d <= 0)
               (debts_after 0 "snowball" scenario_a (length ledger))).
Proof.
  split; [reflexivity|].
  apply (C2_terminates_within_ceiling scenario_a "snowball" 0). reflexivity.
Defined.

(** C2 fails as stated, both ways.  The first call is accepted and stops
    after one month, well before the ceiling, with its only debt at a
    negative balance, which never was zero.  The second is accepted and
    brings its debt to a balance of exactly zero, but only in month 1200:
    it records all 1200 months and does not stop earlier. *)
Lemma C2_counterexample :
  (validate overpaid 1000 = None
   /\ exists ledger : Ledger,
        calculate_debt_payoff overpaid "snowball" 1000 = Some (inr ledger)
        /\ length ledger = 1%nat
        /\ debts_after 1000 "snowball" overpaid 0 = [mkDebt "A" 100 0 10]
        /\ debts_after 1000 "snowball" overpaid 1 = [mkDebt "A" (-910) 0 10]
        /\ ~ List.Forall (fun d => balance d == 0)
             (debts_after 1000 "snowball" overpaid (length ledger)))
  /\ (validate slow_payoff 0 = None
      /\ exists ledger : Ledger,
           calculate_debt_payoff slow_payoff "snowball" 0 = Some (inr ledger)
           /\ length ledger = 1200%nat
           /\ debts_after 0 "snowball" slow_payoff (length ledger) = [mkDebt "A" 0 0 1]).
Proof.
  split.
  - split; [reflexivity|].
    exists (ledger_of (calculate_debt_payoff overpaid "snowball" 1000)).
    destruct (ledger_row_of overpaid "snowball" 1000 0) as [Hcalc _];
      [reflexivity | vm_compute; reflexivity |].
    split; [exact Hcalc|]. split; [vm_compute; reflexivity|].
    split; [vm_compute; reflexivity|]. split; [vm_compute; reflexivity|].
    intros H. vm_compute in H. inversion H as [|d l Hd _]; subst. discriminate Hd.
  - split; [reflexivity|].
    exists (ledger_of (calculate_debt_payoff slow_payoff "snowball" 0)).
    destruct (ledger_row_of slow_payoff "snowball" 0 0) as [Hcalc _];
      [reflexivity | vm_compute; reflexivity |].
    split; [exact Hcalc|]. split; vm_compute; reflexivity.
Qed.

(** ** The pool within one pass *)

Lemma pool_before_S (pool : Q) (debts : list Debt) (j : nat) (d : Debt) :
  debts !! j = Some d ->
  pool_before pool debts (S j) = step_pool (pool_before pool debts j) d.
Proof.
  revert pool j. induction debts as [|d0 rest IH]; intros pool j Hj; [destruct j; discriminate|].
  destruct j as [|j].
  - injection Hj as ->. simpl. now destruct rest.
  - simpl in Hj. change (pool_before pool (d0 :: rest) (S (S j)))
      with (pool_before (step_pool pool d0) rest (S j)).
    rewrite (IH _ _ Hj). reflexivity.
Qed.

(** Paid-off debts in between pass the pool on untouched. *)
Lemma pool_before_skip (pool : Q) (debts : list Debt) (j j' : nat) :
  (j < j')%nat -> (j' <= length debts)%nat ->
  (forall i e, (j < i < j')%nat -> debts !! i = Some e -> balance e <= 0) ->
  pool_before pool debts j' = pool_before pool debts (S j).
Proof.
  intros Hlt Hlen Hclosed. induction j' as [|k IH]; [lia|].
  destruct (Nat.eq_dec k j) as [->|Hne]; [reflexivity|].
  destruct (lookup_lt_is_Some_2 debts k) as [e He]; [lia|].
  rewrite (pool_before_S _ _ _ _ He), IH; [|lia|lia|intros i e' Hi; apply Hclosed; lia].
  unfold step_pool. destruct (Qleb_spec (balance e) 0) as [_|Hn]; [reflexivity|].
  exfalso. apply Hn. apply (Hclosed k e); [lia | exact He].
Qed.

Lemma pool_after_open (pool : Q) (d : Debt) :
  min_payment d < balance d + monthly_interest d -> 0 < pool ->
  pool_after pool d == Qmin pool (monthly_interest d).
Proof.
  intros Ho Hp. rewrite pool_after_eq, payment_of_open by exact Ho.
  rewrite (Q.max_r 0 pool) by lra.
  destruct (Qlt_le_dec (monthly_interest d) pool) as [Hi|Hi].
  - rewrite Q.max_r, Q.min_r by lra. lra.
  - rewrite Q.max_l, Q.min_l by lra. lra.
Qed.

(** C9, as the code has it: an open debt that is not retired by its
    minimum payment and is reached with a positive pool [R] pays
    [min_payment + R] and leaves [min (R, interest)] in the pool, which is
    positive when its interest is; the next open debt in the order is
    offered exactly that pool, and pays its minimum plus that pool when it
    too is not retired by its minimum payment, but pays just balance plus
    interest, pool not added, when it is.  In the first month of
    [card_and_loan] with an extra payment of 100 the total payment exceeds
    the two minimum payments plus the extra payment. *)
Theorem C9_pool_left_over (pool0 : Q) (debts : list Debt) (j : nat) (d : Debt) :
  debts !! j = Some d ->
  0 < balance d ->
  min_payment d < balance d + monthly_interest d ->
  0 < pool_before pool0 debts j ->
  let R := pool_before pool0 debts j in
  payment_of R d == min_payment d + R
  /\ pool_before pool0 debts (S j) == Qmin R (monthly_interest d)
  /\ (0 < monthly_interest d -> 0 < pool_before pool0 debts (S j))
  /\ (forall j' d',
        (j < j')%nat -> debts !! j' = Some d' -> 0 < balance d' ->
        (forall i e, (j < i < j')%nat -> debts !! i = Some e -> balance e <= 0) ->
        pool_before pool0 debts j' = pool_before pool0 debts (S j)
        /\ (min_payment d' < balance d' + monthly_interest d' ->
            0 < monthly_interest d ->
            payment_of (pool_before pool0 debts j') d'
            == min_payment d' + Qmin R (monthly_interest d))
        /\ (balance d' + monthly_interest d' <= min_payment d' ->
            payment_of (pool_before pool0 debts j') d'
            == balance d' + monthly_interest d'))
  /\ (exists (ledger : Ledger) (r : gmap string Q) (total : Q),
        calculate_debt_payoff card_and_loan "snowball" 100 = Some (inr ledger)
        /\ ledger !! 0%nat = Some r
        /\ r !! col_total_payment = Some total
        /\ 50 + 50 + 100 < total).
Proof.
  intros Hj Hb Ho Hp R.
  assert (HS : pool_before pool0 debts (S j) == Qmin R (monthly_interest d)).
  { rewrite (pool_before_S _ _ _ _ Hj). unfold step_pool.
    destruct (Qleb_spec (balance d) 0); [lra|]. now apply pool_after_open. }
  split; [|split; [exact HS|split; [|split]]].
  - rewrite payment_of_open by exact Ho. rewrite Q.max_r by (unfold R; lra). reflexivity.
  - intros Hi. rewrite HS. apply Q.min_glb_lt; [exact Hp | exact Hi].
  - intros j' d' Hlt Hj' Hb' Hclosed.
    assert (Hskip : pool_before pool0 debts j' = pool_before pool0 debts (S j)).
    { apply pool_before_skip; [exact Hlt| |exact Hclosed].
      apply Nat.lt_le_incl. eapply lookup_lt_Some; eauto. }
    split; [exact Hskip|]. split.
    + intros Ho' Hi. rewrite payment_of_open by exact Ho'. rewrite Hskip, HS.
      rewrite Q.max_r; [reflexivity|]. apply Q.min_glb; unfold R; lra.
    + intros Hpay. now apply payment_of_payoff.
  - exists (ledger_of (calculate_debt_payoff card_and_loan "snowball" 100)).
    exists (row_of 100 (initial_state (order_debts "snowball" card_and_loan)) 0).
    exists (625 # 3).
    destruct (ledger_row_of card_and_loan "snowball" 100 0) as [Hcalc Hrow];
      [reflexivity | vm_compute; reflexivity |].
    split; [exact Hcalc|]. split; [exact Hrow|].
    split; vm_compute; reflexivity.
Qed.

Lemma C9_witness :
  card_and_loan !! 0%nat = Some (mkDebt "Card" 500 20 50)
  /\ 0 < balance (mkDebt "Card" 500 20 50)
  /\ 0 < pool_before 100 card_and_loan 0
  /\ payment_of (pool_before 100 card_and_loan 0) (mkDebt "Card" 500 20 50)
     == min_payment (mkDebt "Card" 500 20 50) + pool_before 100 card_and_loan 0
  /\ pool_before 100 card_and_loan 1
     == Qmin (pool_before 100 card_and_loan 0) (monthly_interest (mkDebt "Card" 500 20 50)).
Proof.
  split; [reflexivity|]. split; [reflexivity|]. split; [reflexivity|].
  assert (Ho : min_payment (mkDebt "Card" 500 20 50)
               < balance (mkDebt "Card" 500 20 50)
                 + monthly_interest (mkDebt "Card" 500 20 50)) by (vm_compute; reflexivity).
  pose proof (C9_pool_left_over 100 card_and_loan 0 (mkDebt "Card" 500 20 50)
                eq_refl eq_refl Ho eq_refl) as H.
  split; [exact (proj1 H) | exact (proj1 (proj2 H))].
Defined.

(** C9 fails as stated: here debt A, in the non-payoff branch with a
    positive pool and positive interest, leaves a pool of 10, but the next
    open debt B is retired by its minimum payment and pays 5, the same as
    with no pool at all: the pool is not added to its payment, and the
    month's total does not exceed the minimum payments plus the extra. *)
Lemma C9_counterexample :
  validate interest_then_payoff 100 = None
  /\ order_debts "avalanche" interest_then_payoff = interest_then_payoff
  /\ 0 < balance (mkDebt "A" 1000 12 10)
  /\ min_payment (mkDebt "A" 1000 12 10)
     < balance (mkDebt "A" 1000 12 10) + monthly_interest (mkDebt "A" 1000 12 10)
  /\ 0 < pool_before 100 interest_then_payoff 0
  /\ 0 < monthly_interest (mkDebt "A" 1000 12 10)
  /\ pool_before 100 interest_then_payoff 1 == 10
  /\ 0 < balance (mkDebt "B" 5 0 50)
  /\ payment_of (pool_before 100 interest_then_payoff 1) (mkDebt "B" 5 0 50) == 5
  /\ payment_of 0 (mkDebt "B" 5 0 50) == 5
  /\ exists (ledger : Ledger) (r : gmap string Q),
       calculate_debt_payoff interest_then_payoff "avalanche" 100 = Some (inr ledger)
       /\ ledger !! 0%nat = Some r
       /\ r !! col_payment "A" = Some 110
       /\ r !! col_payment "B" = Some 5
       /\ r !! col_total_payment = Some 115.
Proof.
  repeat (split; [vm_compute; reflexivity|]).
  exists (ledger_of (calculate_debt_payoff interest_then_payoff "avalanche" 100)).
  exists (row_of 100 (initial_state (order_debts "avalanche" interest_then_payoff)) 0).
  destruct (ledger_row_of interest_then_payoff "avalanche" 100 0) as [Hcalc Hrow];
    [reflexivity | vm_compute; reflexivity |].
  split; [exact Hcalc|]. split; [exact Hrow|].
  split; [vm_compute; reflexivity|]. split; vm_compute; reflexivity.
Qed.

(** ** Scenario A *)

Lemma order_debts_singleton (method : string) (d : Debt) : order_debts method [d] = [d].
Proof.
  unfold order_debts. destruct (String.eqb method "snowball"); [reflexivity|].
  destruct (String.eqb method "avalanche"); reflexivity.
Qed.

(** C8: one debt of 1200 at 0% with a minimum payment of 100 and no extra
    payment: the ledger has exactly 12 rows, and the last one shows a
    balance of 0 and a cumulative interest of 0. *)
Theorem C8_scenario_a (method : string) :
  exists (ledger : Ledger) (r : gmap string Q),
    calculate_debt_payoff scenario_a method 0 = Some (inr ledger)
    /\ length ledger = 12%nat
    /\ last ledger = Some r
    /\ ledger !! 11%nat = Some r
    /\ r !! col_month = Some 12
    /\ r !! col_balance "A" = Some 0
    /\ r !! col_total_interest = Some 0.
Proof.
  assert (Hm : calculate_debt_payoff scenario_a method 0
               = calculate_debt_payoff scenario_a "snowball" 0).
  { unfold calculate_debt_payoff, calculate_debt_payoff_fuel, scenario_a.
    now rewrite !order_debts_singleton. }
  rewrite Hm.
  exists (ledger_of (calculate_debt_payoff scenario_a "snowball" 0)).
  exists (row_of 0 (initial_state (order_debts "snowball" scenario_a)) 11).
  destruct (ledger_row_of scenario_a "snowball" 0 11) as [Hcalc Hrow];
    [reflexivity | vm_compute; reflexivity |].
  assert (Hlen : length (ledger_of (calculate_debt_payoff scenario_a "snowball" 0)) = 12%nat)
    by (vm_compute; reflexivity).
  split; [exact Hcalc|]. split; [exact Hlen|]. split.
  - rewrite last_lookup, Hlen. exact Hrow.
  - split; [exact Hrow|].
    split; [vm_compute; reflexivity|]. split; vm_compute; reflexivity.
Qed.

(** ** Unrecognized methods *)

Lemma accepted_any_open (debts : list Debt) (x : Q) :
  validate debts x = None -> any_open debts = true.
Proof.
  intros Hv. apply validate_accepts in Hv. destruct Hv as (Hne & _ & Hacc).
  destruct debts as [|d rest]; [congruence|].
  inversion Hacc as [|? ? (Hb & _) _]; subst. unfold any_open. simpl.
  destruct (Qltb_spec 0 (balance d)); [reflexivity | lra].
Qed.

(** C10: a method other than ["snowball"] and ["avalanche"] raises nothing
    of its own: the debts are simulated in their input order, the call
    raises exactly when validation (which does not look at the method)
    rejects the input, as for the two recognized strategies, and otherwise
    the whole simulation is run over the input order: the ledger returned
    has between 1 and 1200 rows, one for each month that starts with some
    balance positive, row [n] being the row of month [n + 1] of that run,
    and it stops before the ceiling only when no balance is positive. *)
Theorem C10_other_method_keeps_input_order (debts : list Debt) (method : string)
    (extra_payment : Q) :
  method <> "snowball"%string -> method <> "avalanche"%string ->
  order_debts method debts = debts
  /\ (forall e, calculate_debt_payoff debts method extra_payment = Some (inl e)
                <-> validate debts extra_payment = Some e)
  /\ (forall e, calculate_debt_payoff debts method extra_payment = Some (inl e)
                <-> calculate_debt_payoff debts "snowball" extra_payment = Some (inl e))
  /\ (forall e, calculate_debt_payoff debts method extra_payment = Some (inl e)
                <-> calculate_debt_payoff debts "avalanche" extra_payment = Some (inl e))
  /\ (validate debts extra_payment = None ->
      exists ledger : Ledger,
        (forall fuel, (MAX_PAYOFF_MONTHS <= fuel)%nat ->
           calculate_debt_payoff_fuel fuel debts method extra_payment = Some (inr ledger))
        /\ calculate_debt_payoff debts method extra_payment = Some (inr ledger)
        /\ (1 <= length ledger <= 1200)%nat
        /\ (forall n r, ledger !! n = Some r <->
             (n < length ledger)%nat /\ r = row_of extra_payment (initial_state debts) n)
        /\ (forall n, (n < length ledger)%nat ->
             List.Exists (fun d => 0 < balance d)
               (l_debts (state_after extra_payment n (initial_state debts))))
        /\ ((length ledger < 1200)%nat ->
             List.Forall (fun d => balance d <= 0)
               (l_debts (state_after extra_payment (length ledger) (initial_state debts))))).
Proof.
  intros Hs Ha.
  assert (Ho : order_debts method debts = debts).
  { unfold order_debts. apply String.eqb_neq in Hs, Ha. now rewrite Hs, Ha. }
  split; [exact Ho|]. split; [intros e; apply calculate_raises_iff|].
  split; [intros e; unfold calculate_debt_payoff; now rewrite !calculate_raises_iff|].
  split; [intros e; unfold calculate_debt_payoff; now rewrite !calculate_raises_iff|].
  intros Hv. destruct (calculate_rows debts method extra_payment Hv)
    as (ledger & Hcalc & Hlen & Hrow & Hopen & Hend).
  unfold debts_after in Hopen, Hend. rewrite Ho in Hrow, Hopen, Hend.
  exists ledger. split; [exact Hcalc|]. split; [apply Hcalc; lia|].
  split; [|split; [exact Hrow|split]].
  - split; [|exact Hlen]. destruct (length ledger) as [|n] eqn:El; [exfalso | lia].
    assert (Hc : any_open (l_debts (state_after extra_payment 0 (initial_state debts))) = false)
      by (apply Hend; unfold MAX_PAYOFF_MONTHS; lia).
    simpl in Hc. rewrite (accepted_any_open debts extra_payment Hv) in Hc. discriminate.
  - intros n Hn. now apply any_open_true, Hopen.
  - intros Hlt. now apply any_open_false, Hend.
Qed.

Lemma C10_witness :
  "none"%string <> "snowball"%string /\ "none"%string <> "avalanche"%string
  /\ validate loan_then_card 100 = None
  /\ order_debts "none" loan_then_card = loan_then_card
  /\ order_debts "snowball" loan_then_card <> loan_then_card
  /\ exists ledger : Ledger,
       (forall fuel, (MAX_PAYOFF_MONTHS <= fuel)%nat ->
          calculate_debt_payoff_fuel fuel loan_then_card "none" 100 = Some (inr ledger))
       /\ calculate_debt_payoff loan_then_card "none" 100 = Some (inr ledger)
       /\ (1 <= length ledger <= 1200)%nat
       /\ (forall n r, ledger !! n = Some r <->
            (n < length ledger)%nat /\ r = row_of 100 (initial_state loan_then_card) n)
       /\ (forall n, (n < length ledger)%nat ->
            List.Exists (fun d => 0 < balance d)
              (l_debts (state_after 100 n (initial_state loan_then_card))))
       /\ ((length ledger < 1200)%nat ->
            List.Forall (fun d => balance d <= 0)
              (l_debts (state_after 100 (length ledger) (initial_state loan_then_card)))).
Proof.
  split; [discriminate|]. split; [discriminate|]. split; [reflexivity|].
  pose proof (C10_other_method_keeps_input_order loan_then_card "none" 100
                ltac:(discriminate) ltac:(discriminate)) as (Ho & _ & _ & _ & Hrun).
  split; [exact Ho|]. split; [vm_compute; discriminate|].
  apply Hrun. reflexivity.
Defined.

(** * Further properties of the simulator *)

(** ** Which error is raised *)



(** ** First and later months *)

Lemma any_open_perm (l1 l2 : list Debt) :
  Permutation l1 l2 -> any_open l1 = any_open l2.
Proof.
  intros H. destruct (any_open l2) eqn:E.
  - apply any_open_true. apply any_open_true in E. now rewrite H.
  - apply any_open_false. apply any_open_false in E. now rewrite H.
Qed.

(** X2: an accepted call never returns an empty ledger: at least the first
    month is simulated and recorded. *)
Theorem accepted_ledger_nonempty (debts : list Debt) (method : string) (extra_payment : Q) :
  validate debts extra_payment = None ->
  exists ledger : Ledger,
    calculate_debt_payoff debts method extra_payment = Some (inr ledger)
    /\ (1 <= length ledger)%nat.
Proof.
  intros Hv. destruct (calculate_rows debts method extra_payment Hv)
    as (ledger & Hcalc & _ & _ & _ & Hend).
  exists ledger. split; [apply Hcalc; lia|].
  destruct (length ledger) as [|n] eqn:El; [exfalso | lia].
  assert (Ho : any_open (debts_after extra_payment method debts 0) = false)
    by (apply Hend; unfold MAX_PAYOFF_MONTHS; lia).
  unfold debts_after in Ho. simpl in Ho.
  rewrite <- (any_open_perm _ _ (order_debts_perm method debts)) in Ho.
  apply validate_accepts in Hv. destruct Hv as (Hne & _ & Hacc).
  destruct debts as [|d rest]; [congruence|].
  apply any_open_false in Ho. inversion Ho as [|? ? Hd _]; subst.
  inversion Hacc as [|? ? (Hb & _) _]; subst. lra.
Qed.

Lemma accepted_ledger_nonempty_witness :
  validate scenario_a 0 = None
  /\ exists ledger : Ledger,
       calculate_debt_payoff scenario_a "avalanche" 0 = Some (inr ledger)
       /\ (1 <= length ledger)%nat.
Proof.
  split; [reflexivity|].
  apply (accepted_ledger_nonempty scenario_a "avalanche" 0). reflexivity.
Defined.

(** X6: a debt whose balance is zero or less after some month is never
    touched again: no interest, no payment, the same record after every
    later month. *)
Theorem paid_off_debt_stays_frozen (extra_payment : Q) (method : string)
    (debts : list Debt) (n k j : nat) (d : Debt) :
  debts_after extra_payment method debts n !! j = Some d ->
  balance d <= 0 ->
  debts_after extra_payment method debts (n + k) !! j = Some d.
Proof.
  intros Hj Hb. induction k as [|k IH].
  - now rewrite Nat.add_0_r.
  - rewrite Nat.add_succ_r, debts_after_S, IH. simpl. unfold step_debt.
    destruct (Qleb_spec (balance d) 0); [reflexivity | lra].
Qed.

Lemma paid_off_debt_stays_frozen_witness :
  debts_after 0 "snowball" small_and_large 1 !! 0%nat = Some (mkDebt "A" 0 0 100)
  /\ balance (mkDebt "A" 0 0 100) <= 0
  /\ debts_after 0 "snowball" small_and_large (1 + 5) !! 0%nat = Some (mkDebt "A" 0 0 100).
Proof.
  assert (H1 : debts_after 0 "snowball" small_and_large 1 !! 0%nat
               = Some (mkDebt "A" 0 0 100)) by (vm_compute; reflexivity).
  assert (H2 : balance (mkDebt "A" 0 0 100) <= 0) by (vm_compute; discriminate).
  split; [exact H1|]. split; [exact H2|].
  exact (paid_off_debt_stays_frozen 0 "snowball" small_and_large 1 5 0 _ H1 H2).
Defined.

(** ** The pool, the payments and the balances of an accepted run *)

Lemma pass_debts_pool (st : PassState) (debts : list Debt) (j : nat) :
  extra_remaining (fst (pass_debts st (take j debts)))
  = pool_before (extra_remaining st) debts j.
Proof.
  revert st j. induction debts as [|d rest IH]; intros st j.
  - rewrite take_nil. now destruct j.
  - destruct j as [|j]; [reflexivity|].
    rewrite firstn_cons, pass_debts_cons. simpl fst. rewrite IH, process_debt_pool.
    reflexivity.
Qed.

Lemma pool_before_step_le (pool : Q) (debts : list Debt) (j : nat) :
  pool_before pool debts (S j) <= pool_before pool debts j.
Proof.
  revert pool j. induction debts as [|d rest IH]; intros pool j; [simpl; lra|].
  destruct j as [|j].
  - simpl. destruct rest; apply step_pool_le.
  - change (pool_before (step_pool pool d) rest (S j) <= pool_before (step_pool pool d) rest j).
    apply IH.
Qed.

(** X3: in every month, the pool left after paying the first [j] debts of
    the pass is never more than the extra payment and never grows from one
    debt to the next. *)
Theorem pool_stays_within_extra_payment (debts : list Debt) (method : string)
    (extra_payment : Q) (n j : nat) (m : nat) (tip : Q) :
  let pool_after_first k :=
    extra_remaining
      (fst (month_pass extra_payment m tip
              (take k (debts_after extra_payment method debts n)))) in
  pool_after_first j = pool_before extra_payment (debts_after extra_payment method debts n) j
  /\ pool_after_first j <= extra_payment
  /\ pool_after_first (S j) <= pool_after_first j.
Proof.
  intros pool_after_first.
  assert (Heq : forall k, pool_after_first k
                = pool_before extra_payment (debts_after extra_payment method debts n) k).
  { intros k. unfold pool_after_first, month_pass. now rewrite pass_debts_pool. }
  rewrite !Heq. split; [reflexivity|]. split.
  - apply pool_before_le.
  - apply pool_before_step_le.
Qed.

Lemma debts_after_accepted (x : Q) (method : string) (debts : list Debt) (n : nat) :
  List.Forall (accepted_debt x) debts ->
  List.Forall (fun d => 0 <= interest_rate d /\ 0 < min_payment d)
    (debts_after x method debts n).
Proof.
  intros H. apply debts_after_Forall.
  - intros pool d _ Hd. now rewrite step_debt_rate, step_debt_min.
  - eapply List.Forall_impl; [|exact H]. intros d (_ & Hr & Hm & _). now split.
Qed.

(** X4: in an accepted run every payment made is positive and at most the
    debt's minimum payment plus the whole extra payment; it is exactly
    balance plus interest when that fits in the minimum payment, and at
    least the minimum payment otherwise.  With distinct debt names it is
    the amount written in the debt's payment column. *)
Theorem payment_bounds (debts : list Debt) (method : string) (extra_payment : Q)
    (n j : nat) (d : Debt) :
  validate debts extra_payment = None ->
  debts_after extra_payment method debts n !! j = Some d ->
  0 < balance d ->
  let payment :=
    payment_of (pool_before extra_payment (debts_after extra_payment method debts n) j) d in
  0 < payment
  /\ payment <= min_payment d + extra_payment
  /\ (balance d + monthly_interest d <= min_payment d ->
      payment == balance d + monthly_interest d)
  /\ (min_payment d < balance d + monthly_interest d -> min_payment d <= payment)
  /\ (NoDup (map name debts) ->
      row_of extra_payment (initial_state (order_debts method debts)) n
        !! col_payment (name d) = Some payment).
Proof.
  intros Hv Hj Hb payment. apply validate_accepts in Hv. destruct Hv as (_ & Hx & Hacc).
  pose proof (debts_after_accepted extra_payment method debts n Hacc) as Hall.
  rewrite Forall_lookup in Hall. destruct (Hall j d Hj) as [Hr Hm].
  assert (Hi : 0 <= monthly_interest d) by (apply monthly_interest_nonneg; lra).
  pose proof (pool_before_le extra_payment (debts_after extra_payment method debts n) j) as Hle.
  unfold payment.
  destruct (Qlt_le_dec (min_payment d) (balance d + monthly_interest d)) as [Ho|Hpay].
  - pose proof (payment_of_open
                  (pool_before extra_payment (debts_after extra_payment method debts n) j)
                  d Ho) as Hp.
    pose proof (Q.le_max_l 0
                  (pool_before extra_payment (debts_after extra_payment method debts n) j)).
    assert (Qmax 0 (pool_before extra_payment (debts_after extra_payment method debts n) j)
            <= extra_payment) by (apply Q.max_lub; lra).
    repeat split; try lra. intros Hnd.
    destruct (row_of_open extra_payment method debts n j d Hnd Hj Hb) as (_ & _ & H' & _).
    exact H'.
  - pose proof (payment_of_payoff
                  (pool_before extra_payment (debts_after extra_payment method debts n) j)
                  d Hpay) as Hp.
    repeat split; try lra. intros Hnd.
    destruct (row_of_open extra_payment method debts n j d Hnd Hj Hb) as (_ & _ & H' & _).
    exact H'.
Qed.

Lemma payment_bounds_witness :
  validate card_and_loan 100 = None
  /\ debts_after 100 "snowball" card_and_loan 0 !! 1%nat = Some (mkDebt "Loan" 1000 10 50)
  /\ 0 < payment_of (pool_before 100 (debts_after 100 "snowball" card_and_loan 0) 1)
           (mkDebt "Loan" 1000 10 50)
  /\ payment_of (pool_before 100 (debts_after 100 "snowball" card_and_loan 0) 1)
       (mkDebt "Loan" 1000 10 50) <= 50 + 100.
Proof.
  split; [reflexivity|]. split; [reflexivity|].
  pose proof (payment_bounds card_and_loan "snowball" 100 0 1 (mkDebt "Loan" 1000 10 50)
                eq_refl eq_refl eq_refl) as (H1 & H2 & _).
  split; [exact H1 | exact H2].
Defined.

(** ** The columns of a row *)

Lemma debt_columns_dec (k n : string) : {In k (debt_columns n)} + {~ In k (debt_columns n)}.
Proof. apply in_dec, string_dec. Qed.

Lemma pass_debts_key_inv (st : PassState) (debts : list Debt) (k : string) :
  is_Some (monthly_summary (fst (pass_debts st debts)) !! k) ->
  is_Some (monthly_summary st !! k)
  \/ exists d, In d debts /\ 0 < balance d /\ In k (debt_columns (name d)).
Proof.
  revert st. induction debts as [|d rest IH]; intros st H; [now left|].
  rewrite pass_debts_cons in H. simpl fst in H.
  destruct (IH _ H) as [H1|(d' & Hin & Hb & Hk)]; [|right; exists d'; simpl; auto].
  destruct (Qlt_le_dec 0 (balance d)) as [Hb|Hb].
  - destruct (debt_columns_dec k (name d)) as [Hk|Hk]; [right; exists d; simpl; auto|].
    left. now rewrite process_debt_other in H1.
  - left. unfold process_debt in H1. destruct (Qleb_spec (balance d) 0); [exact H1 | lra].
Qed.

(** X8: a row holds nothing but the three fixed columns and the balance,
    payment and interest columns of debts of the portfolio that are open
    when the month starts. *)
Theorem row_has_no_other_columns (debts : list Debt) (method : string)
    (extra_payment : Q) :
  validate debts extra_payment = None ->
  exists ledger : Ledger,
    calculate_debt_payoff debts method extra_payment = Some (inr ledger)
    /\ forall n r k, ledger !! n = Some r -> is_Some (r !! k) ->
         k = col_month \/ k = col_total_payment \/ k = col_total_interest
         \/ exists d, In d (debts_after extra_payment method debts n)
              /\ 0 < balance d
              /\ In (name d) (map name debts)
              /\ In k (debt_columns (name d)).
Proof.
  intros Hv. destruct (calculate_rows debts method extra_payment Hv)
    as (ledger & Hcalc & _ & Hrow & _).
  exists ledger. split; [apply Hcalc; lia|].
  intros n r k Hr Hk. apply Hrow in Hr. destruct Hr as [_ ->].
  rewrite row_of_unfold in Hk. unfold month_row, month_pass in Hk.
  destruct (pass_debts _ (debts_after extra_payment method debts n)) as [st debts'] eqn:E.
  assert (Est : st = fst (pass_debts
                  (mkPass extra_payment (interest_after extra_payment method debts n)
                     (initial_summary (S n) (interest_after extra_payment method debts n)))
                  (debts_after extra_payment method debts n))) by now rewrite E.
  apply lookup_insert_is_Some' in Hk. destruct Hk as [<-|Hk]; [auto|].
  apply lookup_insert_is_Some' in Hk. destruct Hk as [<-|Hk]; [auto|].
  rewrite Est in Hk. apply pass_debts_key_inv in Hk.
  destruct Hk as [Hk|(d & Hin & Hb & Hk)].
  - simpl in Hk. unfold initial_summary in Hk.
    apply lookup_insert_is_Some' in Hk. destruct Hk as [<-|Hk]; [auto|].
    apply lookup_insert_is_Some' in Hk. destruct Hk as [<-|Hk]; [auto|].
    apply lookup_insert_is_Some' in Hk. destruct Hk as [<-|Hk]; [auto|].
    rewrite lookup_empty in Hk. destruct Hk as [? Hk]. discriminate.
  - right; right; right. exists d. repeat split; try assumption.
    apply (Permutation_in (l := map name (order_debts method debts))).
    + symmetry. apply Permutation_map, order_debts_perm.
    + rewrite <- (debts_after_names extra_payment method debts n). now apply in_map.
Qed.

Lemma row_has_no_other_columns_witness :
  validate card_and_loan 100 = None
  /\ exists ledger : Ledger,
       calculate_debt_payoff card_and_loan "snowball" 100 = Some (inr ledger)
       /\ forall n r k, ledger !! n = Some r -> is_Some (r !! k) ->
            k = col_month \/ k = col_total_payment \/ k = col_total_interest
            \/ exists d, In d (debts_after 100 "snowball" card_and_loan n)
                 /\ 0 < balance d
                 /\ In (name d) (map name card_and_loan)
                 /\ In k (debt_columns (name d)).
Proof.
  split; [reflexivity|].
  apply (row_has_no_other_columns card_and_loan "snowball" 100). reflexivity.
Defined.

(** ** The month's total payment *)

Lemma fold_payments_acc (summary : gmap string Q) (debts : list Debt) (acc : Q) :
  fold_left
    (fun acc d => match summary !! col_payment (name d) with
                  | Some p => fr (acc + p)
                  | None => acc
                  end) debts acc
  == acc + sum_payments summary debts.
Proof.
  unfold sum_payments. revert acc. induction debts as [|d rest IH]; intros acc; simpl; [lra|].
  rewrite IH. rewrite (IH (match summary !! col_payment (name d) with
                           | Some p => fr (0 + p) | None => 0 end)).
  destruct (summary !! col_payment (name d)); note_fr; lra.
Qed.

Lemma pass_debts_total (st : PassState) (debts : list Debt) :
  NoDup (map name debts) ->
  (forall d, In d debts -> monthly_summary st !! col_payment (name d) = None) ->
  sum_payments (monthly_summary (fst (pass_debts st debts))) debts
  == month_payments (extra_remaining st) debts.
Proof.
  revert st. induction debts as [|d rest IH]; intros st Hnd Hnone; [reflexivity|].
  apply NoDup_cons in Hnd. destruct Hnd as [Hnotin Hnd].
  assert (Hne : forall d', In d' rest -> name d <> name d').
  { intros d' Hin Heq. apply Hnotin. rewrite Heq. apply list_elem_of_In. now apply in_map. }
  rewrite pass_debts_cons. simpl fst.
  assert (Hd : monthly_summary (fst (pass_debts (fst (process_debt st d)) rest))
                 !! col_payment (name d)
               = monthly_summary (fst (process_debt st d)) !! col_payment (name d)).
  { apply pass_debts_other. intros d' Hin _.
    apply (debt_columns_disjoint (name d) (name d')); [now apply Hne | simpl; tauto]. }
  assert (Hrest : sum_payments (monthly_summary (fst (pass_debts (fst (process_debt st d)) rest)))
                    rest
                  == month_payments (extra_remaining (fst (process_debt st d))) rest).
  { apply IH; [exact Hnd|]. intros d' Hin.
    rewrite process_debt_other; [apply Hnone; now right|].
    apply (debt_columns_disjoint (name d') (name d));
      [intros Heq; now apply (Hne d') | simpl; tauto]. }
  unfold sum_payments at 1. simpl fold_left. rewrite fold_payments_acc, Hrest, Hd.
  rewrite process_debt_pool. simpl month_payments. unfold step_pool.
  destruct (Qlt_le_dec 0 (balance d)) as [Hb|Hb].
  - destruct (process_debt_open st d Hb) as (_ & -> & _).
    destruct (Qleb_spec (balance d) 0); [lra|]. note_fr. lra.
  - assert (Hst : fst (process_debt st d) = st).
    { unfold process_debt. destruct (Qleb_spec (balance d) 0); [reflexivity | lra]. }
    rewrite Hst, (Hnone d) by now left.
    destruct (Qleb_spec (balance d) 0); [lra | lra].
Qed.

Lemma payment_of_pos (pool : Q) (d : Debt) :
  0 < balance d -> 0 <= interest_rate d -> 0 < min_payment d -> 0 < payment_of pool d.
Proof.
  intros Hb Hr Hm.
  assert (Hi : 0 <= monthly_interest d) by (apply monthly_interest_nonneg; lra).
  destruct (Qlt_le_dec (min_payment d) (balance d + monthly_interest d)) as [Ho|Hpay].
  - rewrite payment_of_open by exact Ho. pose proof (Q.le_max_l 0 pool). lra.
  - rewrite payment_of_payoff by exact Hpay. lra.
Qed.

Lemma month_payments_pos (pool : Q) (debts : list Debt) :
  List.Forall (fun d => 0 <= interest_rate d /\ 0 < min_payment d) debts ->
  0 <= month_payments pool debts
  /\ (any_open debts = true -> 0 < month_payments pool debts).
Proof.
  intros Hall. revert pool. induction Hall as [|d rest [Hr Hm] _ IH]; intros pool; simpl.
  - split; [lra | discriminate].
  - unfold any_open in *. simpl.
    destruct (Qleb_spec (balance d) 0) as [Hb|Hb].
    + destruct (Qltb_spec 0 (balance d)); [lra|]. apply IH.
    + assert (0 < payment_of pool d) by (apply payment_of_pos; lra).
      destruct (IH (pool_after pool d)) as [H0 _]. split; [lra | intros _; lra].
Qed.

(** X9: with distinct debt names, the total payment written in a row is
    the sum of the payments made to the open debts in that month, and it
    is positive. *)
Theorem total_payment_is_sum_of_payments (debts : list Debt) (method : string)
    (extra_payment : Q) :
  validate debts extra_payment = None ->
  NoDup (map name debts) ->
  exists ledger : Ledger,
    calculate_debt_payoff debts method extra_payment = Some (inr ledger)
    /\ forall n r, ledger !! n = Some r ->
         exists total,
           r !! col_total_payment = Some total
           /\ total == month_payments extra_payment
                         (debts_after extra_payment method debts n)
           /\ 0 < total.
Proof.
  intros Hv Hnd. destruct (calculate_rows debts method extra_payment Hv)
    as (ledger & Hcalc & _ & Hrow & Hopen & _).
  exists ledger. split; [apply Hcalc; lia|].
  intros n r Hr. apply Hrow in Hr. destruct Hr as [Hn ->].
  rewrite row_of_unfold.
  set (ds := debts_after extra_payment method debts n).
  set (tip := interest_after extra_payment method debts n).
  exists (sum_payments (month_row extra_payment (S n) tip ds) ds).
  split; [apply month_row_total_payment|].
  assert (Hsum : sum_payments (month_row extra_payment (S n) tip ds) ds
                 == month_payments extra_payment ds).
  { rewrite (sum_payments_ext _
               (monthly_summary (fst (month_pass extra_payment (S n) tip ds))) ds ds eq_refl).
    - unfold month_pass.
      rewrite pass_debts_total; [reflexivity | now apply debts_after_NoDup|].
      intros d _. simpl. apply (initial_summary_debt_col _ _ (name d)). simpl. tauto.
    - intros nm. apply (month_row_debt_col _ _ _ _ nm). simpl. tauto. }
  split; [exact Hsum|]. rewrite Hsum.
  apply validate_accepts in Hv. destruct Hv as (_ & _ & Hacc).
  apply month_payments_pos; [now apply debts_after_accepted | now apply Hopen].
Qed.

Lemma total_payment_is_sum_of_payments_witness :
  validate card_and_loan 100 = None
  /\ NoDup (map name card_and_loan)
  /\ exists ledger : Ledger,
       calculate_debt_payoff card_and_loan "snowball" 100 = Some (inr ledger)
       /\ forall n r, ledger !! n = Some r ->
            exists total,
              r !! col_total_payment = Some total
              /\ total == month_payments 100 (debts_after 100 "snowball" card_and_loan n)
              /\ 0 < total.
Proof.
  assert (Hnd : NoDup (map name card_and_loan)).
  { apply NoDup_ListNoDup. repeat constructor; simpl; intros H;
      repeat (destruct H as [H|H]; [discriminate|]); exact H. }
  split; [reflexivity|]. split; [exact Hnd|].
  apply (total_payment_is_sum_of_payments card_and_loan "snowball" 100); [reflexivity | exact Hnd].
Defined.

(** ** Debts passed in strategy order *)

Lemma order_debts_idempotent (method : string) (debts : list Debt) :
  order_debts method (order_debts method debts) = order_debts method debts.
Proof.
  unfold order_debts. destruct (String.eqb method "snowball").
  - apply sorted_determined_by_classes. intros k. apply sorted_with_key.
  - destruct (String.eqb method "avalanche"); [|reflexivity].
    apply sorted_determined_by_classes. intros k. apply sorted_with_key.
Qed.

Lemma input_rejected_perm (l1 l2 : list Debt) (x : Q) :
  Permutation l1 l2 -> input_rejected l1 x -> input_rejected l2 x.
Proof.
  intros Hp [->|[(d & Hin & Hr)|Hx]].
  - left. now apply Permutation_nil.
  - right; left. exists d. split; [|exact Hr]. eapply Permutation_in; eauto.
  - right; right. exact Hx.
Qed.

(** X11: an accepted portfolio handed over already in strategy order is
    accepted too and gives the very same ledger. *)
Theorem presorted_input_same_ledger (debts : list Debt) (method : string)
    (extra_payment : Q) :
  validate debts extra_payment = None ->
  validate (order_debts method debts) extra_payment = None
  /\ calculate_debt_payoff (order_debts method debts) method extra_payment
     = calculate_debt_payoff debts method extra_payment.
Proof.
  intros Hv.
  assert (Hv' : validate (order_debts method debts) extra_payment = None).
  { apply validate_None. apply validate_None in Hv. intros H. apply Hv.
    eapply input_rejected_perm; [|exact H]. symmetry. apply order_debts_perm. }
  split; [exact Hv'|].
  unfold calculate_debt_payoff, calculate_debt_payoff_fuel.
  now rewrite Hv, Hv', order_debts_idempotent.
Qed.

Lemma presorted_input_same_ledger_witness :
  validate loan_then_card 100 = None
  /\ order_debts "snowball" loan_then_card <> loan_then_card
  /\ calculate_debt_payoff (order_debts "snowball" loan_then_card) "snowball" 100
     = calculate_debt_payoff loan_then_card "snowball" 100.
Proof.
  split; [reflexivity|]. split; [vm_compute; discriminate|].
  exact (proj2 (presorted_input_same_ledger loan_then_card "snowball" 100 eq_refl)).
Defined.

(** ** No extra payment: the strategy does not matter *)

Lemma payment_of_no_pool (pool : Q) (d : Debt) :
  pool <= 0 -> payment_of pool d = payment_of 0 d.
Proof.
  intros Hp. unfold payment_of.
  destruct (Qltb_spec 0 pool); [lra|]. destruct (Qltb_spec 0 0); [lra | reflexivity].
Qed.

Lemma pay_no_pool (pool : Q) (d : Debt) : pool <= 0 -> pay pool d = pay 0 d.
Proof. intros Hp. unfold pay. now rewrite (payment_of_no_pool pool d Hp). Qed.

Lemma step_debt_no_pool (pool : Q) (d : Debt) :
  pool <= 0 -> step_debt pool d = step_debt 0 d.
Proof.
  intros Hp. unfold step_debt. destruct (Qleb (balance d) 0); [reflexivity|].
  now apply pay_no_pool.
Qed.

(** Without a pool every debt runs its own course. *)
Lemma debts_after_alone (x : Q) (method : string) (debts : list Debt) (n : nat) :
  x <= 0 -> debts_after x method debts n = map (alone n) (order_debts method debts).
Proof.
  intros Hx. induction n as [|n IH].
  - unfold debts_after. simpl. now rewrite map_id.
  - apply list_eq. intros j. rewrite debts_after_S, IH.
    change (map (alone n) (order_debts method debts))
      with (alone n <$> order_debts method debts).
    change (map (alone (S n)) (order_debts method debts))
      with (alone (S n) <$> order_debts method debts).
    rewrite !list_lookup_fmap. destruct (order_debts method debts !! j) as [d|]; [|reflexivity].
    simpl. f_equal. apply step_debt_no_pool.
    pose proof (pool_before_le x (alone n <$> order_debts method debts) j). lra.
Qed.

Lemma debts_after_methods_perm (x : Q) (m1 m2 : string) (debts : list Debt) (n : nat) :
  x <= 0 -> Permutation (debts_after x m1 debts n) (debts_after x m2 debts n).
Proof.
  intros Hx. rewrite !debts_after_alone by exact Hx. apply Permutation_map.
  rewrite <- (order_debts_perm m1 debts). apply order_debts_perm.
Qed.

Lemma sum_perm (f : Debt -> Q) (l1 l2 : list Debt) :
  Permutation l1 l2 ->
  fold_right (fun d acc => f d + acc) 0 l1 == fold_right (fun d acc => f d + acc) 0 l2.
Proof.
  induction 1 as [|d l l' _ IH|d d' l|l l' l'' _ IH1 _ IH2]; simpl.
  - reflexivity.
  - now rewrite IH.
  - lra.
  - now rewrite IH1.
Qed.

Lemma interest_charged_through_methods (x : Q) (m1 m2 : string) (debts : list Debt)
    (n : nat) :
  x <= 0 ->
  interest_charged_through x m1 debts n == interest_charged_through x m2 debts n.
Proof.
  intros Hx. induction n as [|n IH]; simpl; [reflexivity|]. rewrite IH.
  unfold interest_charged.
  now rewrite (sum_perm debt_interest _ _ (debts_after_methods_perm x m1 m2 debts n Hx)).
Qed.

Lemma month_payments_no_pool (pool : Q) (debts : list Debt) :
  pool <= 0 -> month_payments pool debts == payments_alone debts.
Proof.
  revert pool. induction debts as [|d rest IH]; intros pool Hp; simpl; [reflexivity|].
  destruct (Qleb (balance d) 0) eqn:E.
  - rewrite IH by exact Hp. lra.
  - rewrite IH, (payment_of_no_pool pool d Hp); [reflexivity|].
    pose proof (step_pool_le pool d) as Hs. unfold step_pool in Hs. rewrite E in Hs. lra.
Qed.

Lemma month_row_other (x : Q) (m : nat) (tip : Q) (debts : list Debt) (k : string) :
  k <> col_total_payment -> k <> col_total_interest ->
  month_row x m tip debts !! k = monthly_summary (fst (month_pass x m tip debts)) !! k.
Proof.
  intros H1 H2. unfold month_row. destruct (month_pass x m tip debts) as [st debts'].
  simpl fst.
  rewrite !lookup_insert_ne by (intros <-; first [now apply H1 | now apply H2]).
  reflexivity.
Qed.

Lemma initial_summary_other (m : nat) (tip tip' : Q) (k : string) :
  k <> col_total_interest -> initial_summary m tip !! k = initial_summary m tip' !! k.
Proof.
  intros H. unfold initial_summary. rewrite !(lookup_insert_ne _ "Total Interest Paid"%string)
    by (intros Heq; apply H; now rewrite <- Heq).
  reflexivity.
Qed.

(** Without a pool, what a pass writes in a column depends on the debts
    as a set, not on their order. *)
Lemma pass_debts_lookup_no_pool (st : PassState) (debts : list Debt) (d : Debt) :
  NoDup (map name debts) -> extra_remaining st <= 0 -> In d debts -> 0 < balance d ->
  let summary := monthly_summary (fst (pass_debts st debts)) in
  summary !! col_balance (name d) = Some (balance (pay 0 d))
  /\ summary !! col_payment (name d) = Some (payment_of 0 d)
  /\ summary !! col_interest (name d) = Some (monthly_interest d).
Proof.
  intros Hnd Hp Hin Hb. apply list_elem_of_In, list_elem_of_lookup in Hin.
  destruct Hin as [j Hj].
  pose proof (pool_before_le (extra_remaining st) debts j) as Hle.
  pose proof (pass_debts_open st debts j d Hnd Hj Hb) as H. cbv zeta in H.
  destruct H as (H1 & H2 & H3).
  rewrite (pay_no_pool _ d) in H1 by lra. rewrite (payment_of_no_pool _ d) in H2 by lra.
  cbv zeta. split; [exact H1 | split; [exact H2 | exact H3]].
Qed.

Lemma open_owner_dec (debts : list Debt) (k : string) :
  {d | In d debts /\ 0 < balance d /\ In k (debt_columns (name d))}
  + {forall d, In d debts -> 0 < balance d -> ~ In k (debt_columns (name d))}.
Proof.
  induction debts as [|d rest IH].
  - right. intros d [].
  - destruct IH as [(d' & Hin & Hb & Hk)|Hnone].
    + left. exists d'. simpl. auto.
    + destruct (Qlt_le_dec 0 (balance d)) as [Hb|Hb].
      * destruct (debt_columns_dec k (name d)) as [Hk|Hk].
        -- left. exists d. simpl. auto.
        -- right. intros d' [<-|Hin] Hb'; [exact Hk | now apply Hnone].
      * right. intros d' [<-|Hin] Hb'; [lra | now apply Hnone].
Qed.

Lemma rows_agree_no_pool (x : Q) (m : nat) (tip1 tip2 : Q) (l1 l2 : list Debt) (k : string) :
  x <= 0 -> NoDup (map name l1) -> NoDup (map name l2) -> Permutation l1 l2 ->
  k <> col_total_payment -> k <> col_total_interest ->
  month_row x m tip1 l1 !! k = month_row x m tip2 l2 !! k.
Proof.
  intros Hx Hnd1 Hnd2 Hperm Hk1 Hk2. rewrite !month_row_other by assumption.
  unfold month_pass. destruct (open_owner_dec l1 k) as [(d & Hin & Hb & Hk)|Hnone].
  - assert (Hin2 : In d l2) by (eapply Permutation_in; eauto).
    pose proof (pass_debts_lookup_no_pool (mkPass x tip1 (initial_summary m tip1)) l1 d
                  Hnd1 Hx Hin Hb) as A.
    pose proof (pass_debts_lookup_no_pool (mkPass x tip2 (initial_summary m tip2)) l2 d
                  Hnd2 Hx Hin2 Hb) as B.
    cbv zeta in A, B. destruct A as (A1 & A2 & A3). destruct B as (B1 & B2 & B3).
    simpl in Hk. destruct Hk as [<-|[<-|[<-|[]]]];
      [rewrite A1, B1 | rewrite A2, B2 | rewrite A3, B3]; reflexivity.
  - rewrite !pass_debts_other.
    + simpl. now apply initial_summary_other.
    + intros d Hin Hb. apply Hnone; [|exact Hb]. eapply Permutation_in; [|exact Hin].
      now symmetry.
    + exact Hnone.
Qed.

(** X10: with no extra payment the two strategies, and any other method
    string, lead to the same schedule: the ledgers have the same number of
    rows and, with distinct debt names, every column of every row holds
    the same amount. *)
Theorem no_extra_payment_strategy_irrelevant (debts : list Debt) (m1 m2 : string)
    (extra_payment : Q) :
  validate debts extra_payment = None ->
  extra_payment == 0 ->
  NoDup (map name debts) ->
  exists ledger1 ledger2 : Ledger,
    calculate_debt_payoff debts m1 extra_payment = Some (inr ledger1)
    /\ calculate_debt_payoff debts m2 extra_payment = Some (inr ledger2)
    /\ length ledger1 = length ledger2
    /\ forall n r1 r2 k,
         ledger1 !! n = Some r1 -> ledger2 !! n = Some r2 ->
         same_amount (r1 !! k) (r2 !! k).
Proof.
  intros Hv Hx0 Hnd. assert (Hx : extra_payment <= 0) by lra.
  destruct (calculate_rows debts m1 extra_payment Hv)
    as (l1 & Hc1 & Hlen1 & Hrow1 & Hopen1 & Hend1).
  destruct (calculate_rows debts m2 extra_payment Hv)
    as (l2 & Hc2 & Hlen2 & Hrow2 & Hopen2 & Hend2).
  exists l1, l2. split; [apply Hc1; lia|]. split; [apply Hc2; lia|].
  assert (Hany : forall n, any_open (debts_after extra_payment m1 debts n)
                           = any_open (debts_after extra_payment m2 debts n))
    by (intros n; apply any_open_perm, debts_after_methods_perm, Hx).
  split.
  - destruct (Nat.lt_trichotomy (length l1) (length l2)) as [H|[H|H]]; [|exact H|].
    + exfalso. pose proof (Hopen2 _ H) as Ho. rewrite <- Hany, Hend1 in Ho; [discriminate | lia].
    + exfalso. pose proof (Hopen1 _ H) as Ho. rewrite Hany, Hend2 in Ho; [discriminate | lia].
  - intros n r1 r2 k Hr1 Hr2. apply Hrow1 in Hr1. apply Hrow2 in Hr2.
    destruct Hr1 as [Hn1 ->]. destruct Hr2 as [Hn2 ->].
    pose proof (debts_after_NoDup extra_payment m1 debts n Hnd) as Hnd1.
    pose proof (debts_after_NoDup extra_payment m2 debts n Hnd) as Hnd2.
    pose proof (debts_after_methods_perm extra_payment m1 m2 debts n Hx) as Hperm.
    destruct (string_dec k col_total_interest) as [->|Hk2].
    { rewrite !row_of_total_interest. simpl.
      rewrite !interest_after_through. now apply interest_charged_through_methods. }
    destruct (string_dec k col_total_payment) as [->|Hk1].
    { rewrite !row_of_unfold, !month_row_total_payment. simpl.
      set (ds1 := debts_after extra_payment m1 debts n) in *.
      set (ds2 := debts_after extra_payment m2 debts n) in *.
      assert (Hsum : forall tip ds, NoDup (map name ds) ->
                sum_payments (month_row extra_payment (S n) tip ds) ds == payments_alone ds).
      { intros tip ds Hndd.
        rewrite (sum_payments_ext _
                   (monthly_summary (fst (month_pass extra_payment (S n) tip ds)))
                   ds ds eq_refl).
        - unfold month_pass. rewrite pass_debts_total; [now apply month_payments_no_pool
                                                        | exact Hndd|].
          intros d _. simpl. apply (initial_summary_debt_col _ _ (name d)). simpl. tauto.
        - intros nm. apply (month_row_debt_col _ _ _ _ nm). simpl. tauto. }
      rewrite !Hsum by assumption. unfold payments_alone.
      exact (sum_perm (fun d => if Qleb (balance d) 0 then 0 else payment_of 0 d) _ _ Hperm). }
    rewrite !row_of_unfold.
    rewrite (rows_agree_no_pool extra_payment (S n)
               (interest_after extra_payment m1 debts n)
               (interest_after extra_payment m2 debts n) _ _ k Hx Hnd1 Hnd2 Hperm Hk1 Hk2).
    unfold same_amount. destruct (month_row _ _ _ _ !! k); [reflexivity | exact I].
Qed.

Lemma no_extra_payment_strategy_irrelevant_witness :
  validate loan_then_card 0 = None
  /\ 0 == 0
  /\ NoDup (map name loan_then_card)
  /\ order_debts "snowball" loan_then_card <> order_debts "none" loan_then_card
  /\ exists ledger1 ledger2 : Ledger,
       calculate_debt_payoff loan_then_card "snowball" 0 = Some (inr ledger1)
       /\ calculate_debt_payoff loan_then_card "none" 0 = Some (inr ledger2)
       /\ length ledger1 = length ledger2
       /\ forall n r1 r2 k,
            ledger1 !! n = Some r1 -> ledger2 !! n = Some r2 ->
            same_amount (r1 !! k) (r2 !! k).
Proof.
  assert (Hnd : NoDup (map name loan_then_card)).
  { apply NoDup_ListNoDup. repeat constructor; simpl; intros H;
      repeat (destruct H as [H|H]; [discriminate|]); exact H. }
  split; [reflexivity|]. split; [reflexivity|]. split; [exact Hnd|].
  split; [vm_compute; discriminate|].
  apply (no_extra_payment_strategy_irrelevant loan_then_card "snowball" "none" 0);
    [reflexivity | reflexivity | exact Hnd].
Defined.

(** * The reporting functions *)

(** ** Substrings *)

Lemma string_app_nil_l (t : string) : EmptyString +:+ t = t.
Proof. reflexivity. Qed.

Lemma contains_cons (p : string) (c : ascii) (s : string) :
  contains p (String c s) = String.prefix p (String c s) || contains p s.
Proof. reflexivity. Qed.

Lemma contains_app_l (p a b : string) : contains p b = true -> contains p (a +:+ b) = true.
Proof.
  intros H. induction a as [|c a IH]; [exact H|].
  rewrite string_app_cons, contains_cons, IH. apply orb_true_r.
Qed.

Lemma prefix_app_no (p x t : string) (c : ascii) :
  ~ In c (list_ascii_of_string p) ->
  String.prefix p (x +:+ String c t) = String.prefix p x.
Proof.
  revert x. induction p as [|a p IH]; intros x Hc.
  - destruct x; reflexivity.
  - destruct x as [|b x].
    + rewrite string_app_nil_l. simpl. destruct (ascii_dec a c) as [->|_]; [|reflexivity].
      exfalso. apply Hc. simpl. now left.
    + rewrite string_app_cons. simpl. destruct (ascii_dec a b); [|reflexivity].
      apply IH. intros H. apply Hc. simpl. now right.
Qed.

Lemma contains_app_no (p x t : string) (c : ascii) :
  ~ In c (list_ascii_of_string p) ->
  contains p (x +:+ String c t) = contains p x || contains p (String c t).
Proof.
  intros Hc. induction x as [|b x IH].
  - rewrite string_app_nil_l. destruct p; reflexivity.
  - rewrite string_app_cons, !contains_cons, IH.
    rewrite <- string_app_cons, prefix_app_no by exact Hc. now rewrite orb_assoc.
Qed.

Lemma prefix_nil (t : string) : String.prefix EmptyString t = true.
Proof. destruct t; reflexivity. Qed.

Lemma prefix_app_last (p x t : string) (c : ascii) :
  ~ In c (list_ascii_of_string p) ->
  String.prefix (p +:+ String c EmptyString) (x +:+ String c t)
  = String.prefix (p +:+ String c EmptyString) (x +:+ String c EmptyString).
Proof.
  revert x. induction p as [|a p IH]; intros x Hc.
  - rewrite string_app_nil_l. destruct x as [|b x].
    + rewrite !string_app_nil_l. simpl. destruct (ascii_dec c c); [|reflexivity].
      now rewrite !prefix_nil.
    + rewrite !string_app_cons. simpl. destruct (ascii_dec c b); [|reflexivity].
      now rewrite !prefix_nil.
  - rewrite string_app_cons. destruct x as [|b x].
    + rewrite !string_app_nil_l. simpl. destruct (ascii_dec a c) as [->|_]; [|reflexivity].
      exfalso. apply Hc. simpl. now left.
    + rewrite !string_app_cons. simpl. destruct (ascii_dec a b); [|reflexivity].
      apply IH. intros H. apply Hc. simpl. now right.
Qed.

Lemma contains_app_last (p x t : string) (c : ascii) :
  ~ In c (list_ascii_of_string p) ->
  contains (p +:+ String c EmptyString) (String c t)
  = contains (p +:+ String c EmptyString) (String c EmptyString) ->
  contains (p +:+ String c EmptyString) (x +:+ String c t)
  = contains (p +:+ String c EmptyString) (x +:+ String c EmptyString).
Proof.
  intros Hc Hbase. induction x as [|b x IH].
  - now rewrite !string_app_nil_l.
  - rewrite !string_app_cons, !contains_cons, IH.
    rewrite <- !string_app_cons, prefix_app_last by exact Hc. reflexivity.
Qed.

Lemma prefix_app_self (q x : string) (b c : ascii) :
  ~ In c (list_ascii_of_string q) ->
  String.prefix (String c q) (String b x +:+ String c q) = String.prefix (String c q) (String b x).
Proof.
  intros Hc. rewrite string_app_cons. simpl. destruct (ascii_dec c b); [|reflexivity].
  now apply prefix_app_no.
Qed.

(** ** [str.replace] *)

Lemma replace_absent (old new s : string) :
  contains old s = false -> replace old new s = s.
Proof.
  unfold replace. induction s as [|c s IH]; intros H; [reflexivity|].
  rewrite contains_cons in H. apply orb_false_iff in H. destruct H as [Hp Hc].
  cbn [replace_from]. rewrite Hp, (IH Hc). reflexivity.
Qed.

Lemma replace_from_skip_all (old new s : string) :
  replace_from old new (String.length s) s = EmptyString.
Proof. induction s as [|a s IH]; [reflexivity | exact IH]. Qed.

Lemma prefix_refl (s : string) : String.prefix s s = true.
Proof.
  induction s as [|a s IH]; [reflexivity|]. simpl. now destruct (ascii_dec a a).
Qed.

(** Removing a suffix that occurs nowhere else. *)
Lemma replace_suffix (q n : string) (c : ascii) :
  ~ In c (list_ascii_of_string q) ->
  contains (String c q) n = false ->
  replace (String c q) EmptyString (n +:+ String c q) = n.
Proof.
  intros Hc. unfold replace. induction n as [|b n IH]; intros H.
  - rewrite string_app_nil_l. cbn [replace_from].
    rewrite prefix_refl, string_app_nil_l. cbn [String.length Nat.sub]. rewrite Nat.sub_0_r.
    apply replace_from_skip_all.
  - rewrite contains_cons in H. apply orb_false_iff in H. destruct H as [Hp Hn].
    rewrite <- (prefix_app_self q n b c Hc) in Hp.
    rewrite string_app_cons in *. cbn [replace_from]. rewrite Hp, (IH Hn). reflexivity.
Qed.

Lemma prefix_app_refl (p x : string) : String.prefix p (p +:+ x) = true.
Proof.
  induction p as [|a p IH]; [apply prefix_nil|].
  rewrite string_app_cons. simpl. now destruct (ascii_dec a a).
Qed.

Lemma replace_from_skip (old new q x : string) (k : nat) :
  replace_from old new (String.length q + k) (q +:+ x) = replace_from old new k x.
Proof.
  induction q as [|a q IH]; [reflexivity|]. rewrite string_app_cons. exact IH.
Qed.

(** Removing a leading occurrence. *)
Lemma replace_prefix (c : ascii) (q x : string) :
  replace (String c q) EmptyString (String c q +:+ x) = replace (String c q) EmptyString x.
Proof.
  unfold replace. pose proof (prefix_app_refl (String c q) x) as Hp.
  rewrite string_app_cons in *. cbn [replace_from]. rewrite Hp, string_app_nil_l.
  cbn [String.length Nat.sub]. rewrite Nat.sub_0_r.
  rewrite <- (Nat.add_0_r (String.length q)). apply replace_from_skip.
Qed.

(** ** The chart *)

Lemma contains_Balance_col_balance (n : string) : contains "Balance" (col_balance n) = true.
Proof. unfold col_balance. now do 2 apply contains_app_l. Qed.

Lemma contains_Balance_after_debt (x : string) :
  contains "Balance" ("Debt " +:+ x) = contains "Balance" x.
Proof. rewrite !string_app_cons, string_app_nil_l, !contains_cons. reflexivity. Qed.

Lemma not_in_Balance : ~ In " "%char (list_ascii_of_string "Balance").
Proof. simpl. intros H. repeat (destruct H as [H|H]; [discriminate|]). exact H. Qed.

Lemma contains_Balance_col_payment (n : string) :
  contains "Balance" (col_payment n) = contains "Balance" n.
Proof.
  unfold col_payment. rewrite contains_Balance_after_debt.
  change " Payment"%string with (String " " "Payment").
  rewrite contains_app_no by exact not_in_Balance. apply orb_false_r.
Qed.

Lemma contains_Balance_col_interest (n : string) :
  contains "Balance" (col_interest n) = contains "Balance" n.
Proof.
  unfold col_interest. rewrite contains_Balance_after_debt.
  change " Interest"%string with (String " " "Interest").
  rewrite contains_app_no by exact not_in_Balance. apply orb_false_r.
Qed.

Lemma plot_debt_payoff_In (columns : list string) (lbl col : string) :
  In (lbl, col) (plot_debt_payoff columns)
  <-> In col columns /\ contains "Balance" col = true /\ lbl = plot_label col.
Proof.
  unfold plot_debt_payoff. rewrite in_map_iff. split.
  - intros (c & [= <- <-] & Hin). apply filter_In in Hin. tauto.
  - intros (Hin & Hc & ->). exists col. split; [reflexivity|]. apply filter_In. tauto.
Qed.

(** X13: the chart draws a line for every balance column of the frame and
    for none of the month, total payment and total interest columns; a
    debt's payment or interest column is drawn as well exactly when the
    debt's name itself contains "Balance". *)
Theorem chart_draws_balance_columns (columns : list string) (n : string) :
  (In (col_balance n) columns ->
   In (plot_label (col_balance n), col_balance n) (plot_debt_payoff columns))
  /\ (forall lbl col, In (lbl, col) (plot_debt_payoff columns) ->
        In col columns /\ lbl = plot_label col
        /\ col <> col_month /\ col <> col_total_payment /\ col <> col_total_interest)
  /\ (In (plot_label (col_payment n), col_payment n) (plot_debt_payoff columns)
      <-> In (col_payment n) columns /\ contains "Balance" n = true)
  /\ (In (plot_label (col_interest n), col_interest n) (plot_debt_payoff columns)
      <-> In (col_interest n) columns /\ contains "Balance" n = true).
Proof.
  split; [|split; [|split]].
  - intros Hin. apply plot_debt_payoff_In. split; [exact Hin|].
    split; [apply contains_Balance_col_balance | reflexivity].
  - intros lbl col H. apply plot_debt_payoff_In in H. destruct H as (Hin & Hc & ->).
    split; [exact Hin|]. split; [reflexivity|].
    repeat split; intros ->; vm_compute in Hc; discriminate.
  - rewrite plot_debt_payoff_In, contains_Balance_col_payment. tauto.
  - rewrite plot_debt_payoff_In, contains_Balance_col_interest. tauto.
Qed.

(** X14: when a debt's name has no " Balance" in it and, followed by a
    space, no "Debt ", the legend label computed for its balance column
    is the name itself, so its line is drawn under its own name. *)
Theorem chart_label_is_debt_name (columns : list string) (n : string) :
  contains "Debt " (n +:+ " ") = false ->
  contains " Balance" n = false ->
  plot_label (col_balance n) = n
  /\ (In (col_balance n) columns -> In (n, col_balance n) (plot_debt_payoff columns)).
Proof.
  intros H1 H2.
  assert (Hl : plot_label (col_balance n) = n).
  { unfold plot_label, col_balance.
    rewrite (replace_prefix "D" "ebt " (n +:+ " Balance")).
    rewrite (replace_absent "Debt " EmptyString (n +:+ " Balance")).
    - apply (replace_suffix "Balance" n " " not_in_Balance H2).
    - change "Debt "%string with ("Debt" +:+ String " " EmptyString).
      change " Balance"%string with (String " " "Balance").
      rewrite contains_app_last; [exact H1 | | reflexivity].
      simpl. intros H. repeat (destruct H as [H|H]; [discriminate|]). exact H. }
  split; [exact Hl|]. intros Hin. apply plot_debt_payoff_In.
  split; [exact Hin|]. split; [apply contains_Balance_col_balance | now rewrite Hl].
Qed.

Lemma chart_label_is_debt_name_witness :
  contains "Debt " ("Credit Card" +:+ " ") = false
  /\ contains " Balance" "Credit Card" = false
  /\ plot_label (col_balance "Credit Card") = "Credit Card"%string.
Proof.
  split; [reflexivity|]. split; [reflexivity|].
  exact (proj1 (chart_label_is_debt_name [] "Credit Card" eq_refl eq_refl)).
Defined.

(** ** The spreadsheet *)

Lemma row_of_key_inv (x : Q) (method : string) (debts : list Debt) (n : nat) (k : string) :
  is_Some (row_of x (initial_state (order_debts method debts)) n !! k) ->
  k = col_month \/ k = col_total_payment \/ k = col_total_interest
  \/ exists nm, In k (debt_columns nm).
Proof.
  intros Hk. rewrite row_of_unfold in Hk. unfold month_row, month_pass in Hk.
  destruct (pass_debts _ (debts_after x method debts n)) as [st debts'] eqn:E.
  assert (Est : st = fst (pass_debts
                  (mkPass x (interest_after x method debts n)
                     (initial_summary (S n) (interest_after x method debts n)))
                  (debts_after x method debts n))) by now rewrite E.
  apply lookup_insert_is_Some' in Hk. destruct Hk as [<-|Hk]; [auto|].
  apply lookup_insert_is_Some' in Hk. destruct Hk as [<-|Hk]; [auto|].
  rewrite Est in Hk. apply pass_debts_key_inv in Hk.
  destruct Hk as [Hk|(d & _ & _ & Hk)]; [|right; right; right; eauto].
  simpl in Hk. unfold initial_summary in Hk.
  apply lookup_insert_is_Some' in Hk. destruct Hk as [<-|Hk]; [auto|].
  apply lookup_insert_is_Some' in Hk. destruct Hk as [<-|Hk]; [auto|].
  apply lookup_insert_is_Some' in Hk. destruct Hk as [<-|Hk]; [auto|].
  rewrite lookup_empty in Hk. destruct Hk as [? Hk]. discriminate.
Qed.

Lemma needs_currency_format_debt_columns (nm k : string) :
  In k (debt_columns nm) -> needs_currency_format k = true.
Proof.
  unfold needs_currency_format, debt_columns, col_balance, col_payment, col_interest.
  intros [<-|[<-|[<-|[]]]].
  - rewrite (contains_app_l "Balance" "Debt " _ (contains_app_l "Balance" nm " Balance" eq_refl)).
    now rewrite orb_true_r.
  - now rewrite (contains_app_l "Payment" "Debt " _
                   (contains_app_l "Payment" nm " Payment" eq_refl)).
  - rewrite (contains_app_l "Interest" "Debt " _
               (contains_app_l "Interest" nm " Interest" eq_refl)).
    now rewrite !orb_true_r.
Qed.

(** X15: of the columns of a returned ledger, the export gives the dollar
    format to every one except the month column; and the explicit list of
    the two total columns in the test never decides anything, the three
    substring tests alone give the same answer for every name. *)
Theorem export_formats_all_but_month (debts : list Debt) (method : string)
    (extra_payment : Q) :
  validate debts extra_payment = None ->
  (exists ledger : Ledger,
     calculate_debt_payoff debts method extra_payment = Some (inr ledger)
     /\ forall n r k, ledger !! n = Some r -> is_Some (r !! k) ->
          (needs_currency_format k = true <-> k <> col_month))
  /\ (forall col_name,
        needs_currency_format col_name
        = contains "Payment" col_name || contains "Balance" col_name
          || contains "Interest" col_name).
Proof.
  intros Hv. split.
  - destruct (calculate_rows debts method extra_payment Hv)
      as (ledger & Hcalc & _ & Hrow & _).
    exists ledger. split; [apply Hcalc; lia|].
    intros n r k Hr Hk. apply Hrow in Hr. destruct Hr as [_ ->].
    apply row_of_key_inv in Hk. destruct Hk as [->|[->|[->|(nm & Hk)]]].
    + split; [vm_compute; discriminate | intros H; now contradiction H].
    + split; [intros _; discriminate | intros _; reflexivity].
    + split; [intros _; discriminate | intros _; reflexivity].
    + split; [intros _ ->|intros _; eapply needs_currency_format_debt_columns; eauto].
      destruct (fixed_columns_not_debt nm) as (Hm & _). exact (Hm Hk).
  - intros col_name. unfold needs_currency_format. simpl existsb.
    destruct (String.eqb_spec col_name "Total Payment") as [->|_]; [reflexivity|].
    destruct (String.eqb_spec col_name "Total Interest Paid") as [->|_]; [reflexivity|].
    now rewrite orb_false_r.
Qed.

Lemma export_formats_all_but_month_witness :
  validate card_and_loan 100 = None
  /\ exists ledger : Ledger,
       calculate_debt_payoff card_and_loan "snowball" 100 = Some (inr ledger)
       /\ forall n r k, ledger !! n = Some r -> is_Some (r !! k) ->
            (needs_currency_format k = true <-> k <> col_month).
Proof.
  split; [reflexivity|].
  exact (proj1 (export_formats_all_but_month card_and_loan "snowball" 100 eq_refl)).
Defined.

Lemma fold_width_spec (str_number : Q -> string) (col : list CellValue) (acc : nat) :
  let F :=
    fold_left
      (fun max_length cell =>
         if truthy cell
         then Nat.max max_length (String.length (cell_text str_number cell))
         else max_length) in
  (acc <= F col acc)%nat
  /\ (forall v, In v col -> truthy v = true ->
        (String.length (cell_text str_number v) <= F col acc)%nat)
  /\ (F col acc = acc
      \/ exists v, In v col /\ truthy v = true
           /\ F col acc = String.length (cell_text str_number v))
  /\ F (List.filter truthy col) acc = F col acc.
Proof.
  cbv zeta. revert acc. induction col as [|c col IH]; intros acc; simpl.
  - repeat split; [lia | intros v [] | now left].
  - destruct (truthy c) eqn:Ec; simpl; rewrite ?Ec.
    + destruct (IH (Nat.max acc (String.length (cell_text str_number c))))
        as (H1 & H2 & H3 & H4).
      repeat split; [lia | | | exact H4].
      * intros v [<-|Hin] Hv; [lia | now apply H2].
      * destruct H3 as [H3|(v & Hin & Hv & H3)].
        -- rewrite H3.
           destruct (Nat.max_spec acc (String.length (cell_text str_number c)))
             as [[_ Hm]|[_ Hm]]; rewrite Hm.
           ++ right. exists c. split; [now left | split; [exact Ec | reflexivity]].
           ++ now left.
        -- right. exists v. split; [now right | split; [exact Hv | exact H3]].
    + destruct (IH acc) as (H1 & H2 & H3 & H4).
      repeat split; [exact H1 | | | exact H4].
      * intros v [<-|Hin] Hv; [congruence | now apply H2].
      * destruct H3 as [H3|(v & Hin & Hv & H3)]; [now left|].
        right. exists v. split; [now right | split; [exact Hv | exact H3]].
Qed.

(** X16: the width set for a column is at least 2, leaves room for the
    text of every truthy cell plus 2, and is exactly that for the widest
    one; cells holding nothing, an empty text or zero never widen a column
    (a column of such cells gets width 2), and every column of the sheet
    gets a width. *)
Theorem column_width_fits_widest_cell (str_number : Q -> string)
    (sheet : list (list CellValue)) (col : list CellValue) :
  let width := adjusted_width str_number col in
  (2 <= width)%nat
  /\ (forall v, In v col -> truthy v = true ->
        (String.length (cell_text str_number v) + 2 <= width)%nat)
  /\ (width = 2%nat
      \/ exists v, In v col /\ truthy v = true
           /\ width = (String.length (cell_text str_number v) + 2)%nat)
  /\ adjusted_width str_number (List.filter truthy col) = width
  /\ ((forall v, In v col -> truthy v = false) -> width = 2%nat)
  /\ length (auto_adjust_column_width str_number sheet) = length sheet.
Proof.
  cbv zeta. unfold adjusted_width, auto_adjust_column_width.
  pose proof (fold_width_spec str_number col 0) as H. cbv zeta in H.
  destruct H as (H1 & H2 & H3 & H4).
  split; [lia|]. split; [intros v Hin Hv; specialize (H2 v Hin Hv); lia|].
  split; [destruct H3 as [->|(v & Hin & Hv & ->)]; [now left | right; exists v; auto]|].
  split; [now rewrite H4|]. split; [|apply length_map].
  intros Hall. destruct H3 as [->|(v & Hin & Hv & _)]; [reflexivity|].
  rewrite (Hall v Hin) in Hv. discriminate.
Qed.

(** ** Who gets the extra payment *)

Lemma pool_before_all_closed (pool : Q) (debts : list Debt) (j : nat) :
  (j <= length debts)%nat ->
  (forall i e, (i < j)%nat -> debts !! i = Some e -> balance e <= 0) ->
  pool_before pool debts j = pool.
Proof.
  intros Hlen Hclosed. induction j as [|j IH]; [now destruct debts|].
  destruct (lookup_lt_is_Some_2 debts j) as [e He]; [lia|].
  rewrite (pool_before_S _ _ _ _ He), IH; [|lia|intros i e' Hi; apply Hclosed; lia].
  unfold step_pool. destruct (Qleb_spec (balance e) 0) as [_|Hn]; [reflexivity|].
  exfalso. apply Hn. apply (Hclosed j e); [lia | exact He].
Qed.

(** X17: each month the first debt in strategy order that is still open is
    offered the whole extra payment; unless its minimum payment retires it,
    it pays its minimum payment plus the whole extra payment. *)
Theorem first_open_debt_gets_whole_extra (debts : list Debt) (method : string)
    (extra_payment : Q) (n j : nat) (d : Debt) :
  validate debts extra_payment = None ->
  debts_after extra_payment method debts n !! j = Some d ->
  0 < balance d ->
  (forall i e, (i < j)%nat ->
     debts_after extra_payment method debts n !! i = Some e -> balance e <= 0) ->
  pool_before extra_payment (debts_after extra_payment method debts n) j = extra_payment
  /\ (min_payment d < balance d + monthly_interest d ->
      exists d',
        debts_after extra_payment method debts (S n) !! j = Some d'
        /\ payment_of extra_payment d == min_payment d + extra_payment
        /\ balance d' == balance d + monthly_interest d - min_payment d - extra_payment
        /\ (NoDup (map name debts) ->
            row_of extra_payment (initial_state (order_debts method debts)) n
              !! col_payment (name d) = Some (payment_of extra_payment d))).
Proof.
  intros Hv Hj Hb Hclosed.
  assert (Hpool : pool_before extra_payment (debts_after extra_payment method debts n) j
                  = extra_payment).
  { apply pool_before_all_closed; [|exact Hclosed].
    apply Nat.lt_le_incl. eapply lookup_lt_Some; eauto. }
  split; [exact Hpool|]. intros Ho.
  apply validate_accepts in Hv. destruct Hv as (_ & Hx & _).
  exists (pay extra_payment d). split; [|split; [|split]].
  - rewrite debts_after_S, Hj, Hpool. simpl. unfold step_debt.
    destruct (Qleb_spec (balance d) 0); [lra | reflexivity].
  - rewrite payment_of_open by exact Ho. rewrite Q.max_r by exact Hx. reflexivity.
  - rewrite pay_balance, payment_of_open by exact Ho. rewrite Q.max_r by exact Hx. lra.
  - intros Hnd. destruct (row_of_open extra_payment method debts n j d Hnd Hj Hb)
      as (_ & _ & H & _). rewrite Hpool in H. exact H.
Qed.

Lemma first_open_debt_gets_whole_extra_witness :
  validate card_and_loan 100 = None
  /\ debts_after 100 "snowball" card_and_loan 0 !! 0%nat = Some (mkDebt "Card" 500 20 50)
  /\ pool_before 100 (debts_after 100 "snowball" card_and_loan 0) 0 = 100.
Proof.
  split; [reflexivity|]. split; [reflexivity|].
  refine (proj1 (first_open_debt_gets_whole_extra card_and_loan "snowball" 100 0 0
                   (mkDebt "Card" 500 20 50) eq_refl eq_refl eq_refl _)).
  intros i e Hi. inversion Hi.
Defined.

(** * The program in binary64

    What the validation prologue decides on Python floats, and where a
    float run parts from the exact one. *)

Lemma binary64_validate_debt_cases (x : float) (d : Binary64.Debt) :
  match Binary64.validate_debt x d with
  | Some _ => Binary64.debt_rejected x d
  | None => ~ Binary64.debt_rejected x d
  end.
Proof.
  unfold Binary64.validate_debt, Binary64.debt_rejected, Binary64.monthly_interest.
  destruct (PrimFloat.leb (Binary64.balance d) 0); [now left|].
  destruct (PrimFloat.ltb (Binary64.interest_rate d) 0); [right; now left|].
  destruct (PrimFloat.leb (Binary64.min_payment d) 0); [right; right; now left|].
  destruct (PrimFloat.leb (Binary64.min_payment d) _), (PrimFloat.eqb x 0); simpl;
    first [ right; right; right; now split
          | intros [H|[H|[H|[H1 H2]]]]; discriminate ].
Qed.

Lemma binary64_validate_debts_cases (x : float) (debts : list Binary64.Debt) :
  match Binary64.validate_debts x debts with
  | Some _ => exists d, In d debts /\ Binary64.debt_rejected x d
  | None => forall d, In d debts -> ~ Binary64.debt_rejected x d
  end.
Proof.
  induction debts as [|d rest IH]; simpl.
  - intros d [].
  - pose proof (binary64_validate_debt_cases x d) as Hd.
    destruct (Binary64.validate_debt x d) as [e|].
    + exists d. split; [now left | exact Hd].
    + destruct (Binary64.validate_debts x rest) as [e|].
      * destruct IH as (d' & Hin & Hr). exists d'. split; [now right | exact Hr].
      * intros d' [<-|Hin]; [exact Hd | now apply IH].
Qed.

Lemma binary64_validate_cases (debts : list Binary64.Debt) (x : float) :
  match Binary64.validate debts x with
  | Some _ => Binary64.input_rejected debts x
  | None => ~ Binary64.input_rejected debts x
  end.
Proof.
  unfold Binary64.validate, Binary64.input_rejected.
  destruct debts as [|d rest]; [now left|].
  pose proof (binary64_validate_debts_cases x (d :: rest)) as Hd.
  destruct (Binary64.validate_debts x (d :: rest)) as [e|]; [right; now left|].
  destruct (PrimFloat.ltb x 0); [right; now right|].
  intros [H|[(d' & Hin & Hr)|H]]; [discriminate | now apply (Hd d') | discriminate].
Qed.

Lemma binary64_raises_iff (py_sum : list float -> float) (fuel : nat)
    (debts : list Binary64.Debt) (method : string) (x : float) (e : Binary64.ValueError) :
  Binary64.calculate_debt_payoff_fuel py_sum fuel debts method x = Some (inl e)
  <-> Binary64.validate debts x = Some e.
Proof.
  unfold Binary64.calculate_debt_payoff_fuel.
  destruct (Binary64.validate debts x) as [e'|].
  - split; intros H; congruence.
  - destruct (Binary64.while_loop _ _ _ _); split; intros H; congruence.
Qed.

Lemma binary64_loop_body_month (py_sum : list float -> float) (x : float)
    (s : Binary64.LoopState) :
  Binary64.l_month (Binary64.loop_body py_sum x s) = S (Binary64.l_month s).
Proof.
  unfold Binary64.loop_body. destruct (Binary64.pass_debts _ _). reflexivity.
Qed.

(** The ceiling bounds the number of iterations in binary64 as well. *)
Lemma binary64_while_loop_terminates (py_sum : list float -> float) (x : float)
    (fuel : nat) (s : Binary64.LoopState) :
  (S MAX_PAYOFF_MONTHS - Binary64.l_month s <= fuel)%nat ->
  exists s', Binary64.while_loop py_sum x fuel s = Some s'.
Proof.
  revert s. induction fuel as [|fuel IH]; intros s Hf; simpl.
  - destruct (Binary64.loop_cond s) eqn:E; [|eauto]. exfalso.
    unfold Binary64.loop_cond in E. apply andb_true_iff in E. destruct E as [_ E].
    apply Nat.leb_le in E. lia.
  - destruct (Binary64.loop_cond s) eqn:E; [|eauto].
    apply IH. rewrite binary64_loop_body_month. lia.
Qed.

(** C3: run on Python floats, a call raises a [ValueError] exactly when
    the debts list is empty, or some debt has [balance <= 0], or
    [interest_rate < 0], or [min_payment <= 0], or
    [min_payment <= balance * (interest_rate / 100) / 12] while
    [extra_payment == 0], or [extra_payment < 0], each comparison and the
    month of interest being evaluated in binary64 as the code evaluates
    them.  The error comes from the validation prologue alone (the same
    error with no loop iteration allowed), a raising call returns no
    ledger, and every other call returns one. *)
Theorem C3_validation_error_iff (py_sum : list float -> float)
    (debts : list Binary64.Debt) (method : string) (extra_payment : float) :
  ((exists e, Binary64.calculate_debt_payoff py_sum debts method extra_payment
              = Some (inl e))
   <-> Binary64.input_rejected debts extra_payment)
  /\ (forall e,
        Binary64.calculate_debt_payoff py_sum debts method extra_payment = Some (inl e) ->
        Binary64.validate debts extra_payment = Some e
        /\ Binary64.calculate_debt_payoff_fuel py_sum 0 debts method extra_payment
           = Some (inl e)
        /\ forall ledger,
             Binary64.calculate_debt_payoff py_sum debts method extra_payment
             <> Some (inr ledger))
  /\ (~ Binary64.input_rejected debts extra_payment ->
      exists ledger,
        Binary64.calculate_debt_payoff py_sum debts method extra_payment
        = Some (inr ledger)).
Proof.
  pose proof (binary64_validate_cases debts extra_payment) as Hv.
  split; [split|split].
  - intros (e & He). apply binary64_raises_iff in He. now rewrite He in Hv.
  - intros Hr. destruct (Binary64.validate debts extra_payment) as [e|] eqn:E;
      [|contradiction].
    exists e. now apply binary64_raises_iff.
  - intros e He. pose proof He as He'. apply binary64_raises_iff in He'.
    split; [exact He'|]. split; [now apply binary64_raises_iff|].
    intros ledger. rewrite He. discriminate.
  - intros Hn. unfold Binary64.calculate_debt_payoff, Binary64.calculate_debt_payoff_fuel.
    destruct (Binary64.validate debts extra_payment) as [e|]; [contradiction|].
    destruct (binary64_while_loop_terminates py_sum extra_payment MAX_PAYOFF_MONTHS
                (Binary64.initial_state (Binary64.order_debts method debts))) as [s Hs].
    + change (Binary64.l_month (Binary64.initial_state (Binary64.order_debts method debts)))
        with 1%nat. lia.
    + rewrite Hs. eauto.
Qed.

(** On the boundary the rounding decides.  For a debt of 6000 at 29% a
    month of interest is 145 exactly, and the exact program rejects a
    minimum payment of 145; binary64 computes an interest just below 145,
    so the float run is accepted, and the balance stays at 6000 through all
    1200 months. *)
Lemma binary64_boundary_input_accepted (py_sum : list float -> float) :
  let d := Binary64.mkDebt "A" 6000 29 145 in
  PrimFloat.ltb (Binary64.monthly_interest d) 145 = true
  /\ Binary64.validate [d] 0 = None
  /\ Binary64.run_outcome py_sum [d] "snowball" 0 = Some (1200%nat, [6000%float])
  /\ validate [mkDebt "A" 6000 29 145] 0 = Some (MinPaymentBelowInterest "A" 145 145).
Proof.
  split; [reflexivity|]. split; [reflexivity|]. split; [|reflexivity].
  vm_compute. reflexivity.
Qed.

(** The payoff month pays [balance + interest] and takes
    [payment - interest] off the balance: exactly the balance on exact
    numbers, not always in binary64.  A debt of 3500 at 21% paying 100 a
    month ends, after 55 months, on a balance just below zero; a debt of
    100 at 6% paying 100 is left with a balance just above zero after its
    second month and is carried for 22 months. *)
Lemma binary64_payoff_residue (py_sum : list float -> float) :
  Binary64.run_outcome py_sum [Binary64.mkDebt "A" 3500 21 100] "snowball" 0
    = Some (55%nat, [(-0x1p-47)%float])
  /\ Binary64.run_outcome py_sum [Binary64.mkDebt "A" 100 6 100] "snowball" 0
    = Some (22%nat, [0%float])
  /\ map balance (debts_after 0 "snowball" [mkDebt "A" 3500 21 100] 55) = [0]
  /\ map balance (debts_after 0 "snowball" [mkDebt "A" 100 6 100] 2) = [0].
Proof.
  split; [vm_compute; reflexivity|]. split; [vm_compute; reflexivity|].
  split; vm_compute; reflexivity.
Qed.

(** The pool, too, can end a pass just below zero in binary64: with an
    extra payment of 100.3, a debt of 1000 at 0% and a minimum payment of
    25.1 leaves a pool of about -1.4e-14. *)
Lemma binary64_pool_residue :
  PrimFloat.ltb
    (Binary64.pool_after (1003 / 10) (Binary64.mkDebt "A" 1000 0 (251 / 10))) 0 = true.
Proof. reflexivity. Qed.
